(** * Push registration coordinator of ionic-cloud: a shallow embedding

    The development follows [src/push/push.ts] (class [Push]) and
    [src/config.ts] (class [Config]).  JavaScript objects that are shared
    and mutated through references (the [PushToken] instances, the
    promises handed out to callers) live in explicit stores inside the
    state; asynchronous callbacks (the HTTP completion callback, the
    one-shot [device:ready] subscription, the handlers attached to the
    native plugin) are defunctionalised: the state records which closure
    is waiting, and a separate function runs it when the environment
    delivers the corresponding event. *)

From Stdlib Require Import Ascii.
From stdpp Require Import base option list strings gmap.

Local Open Scope string_scope.
Local Open Scope list_scope.

(** ** JavaScript values used by the coordinator *)

(** Truthiness of an optional string: [undefined] and the empty string
    are falsy. *)
Definition truthy_str (v : option string) : bool :=
  match v with
  | Some s => negb (String.eqb s "")
  | None => false
  end.

(** Truthiness of an optional boolean flag. *)
Definition truthy_bool (v : option bool) : bool :=
  match v with
  | Some b => b
  | None => false
  end.

(** Truthiness of an optional object reference: any object is truthy. *)
Definition truthy_obj {A : Type} (v : option A) : bool :=
  match v with
  | Some _ => true
  | None => false
  end.

(** Errors that travel through promise rejections or are thrown. *)
Inductive JsError : Type :=
  | NewError (message : string)        (* [new Error(message)] *)
  | TypeError (message : string)       (* property access on undefined/null *)
  | TransportError (payload : string). (* the [err] handed to an HTTP callback *)

(** ** Config ([src/config.ts]) *)

Module Config.

Record ISettingsCore : Type := mkCore {
  values : gmap string string;
  core_urls : option (gmap string string)
}.

Record ISettings : Type := mkSettings {
  core : option ISettingsCore
}.

Record t : Type := mkConfig {
  settings : option ISettings
}.

(** [private urls = {'api': 'https://api.ionic.io'}] *)
Definition urls : gmap string string :=
  {[ "api" := "https://api.ionic.io" ]}.

Definition register (s : ISettings) (_ : t) : t :=
  {| settings := Some s |}.

(** [get] is read at the keys of the core settings that hold strings;
    the coordinator asks for ['app_id'] only. *)
Definition get (name : string) (c : t) : option string :=
  match settings c with
  | None => None
  | Some s =>
      match core s with
      | None => None
      | Some co => values co !! name
      end
  end.

(** What reading a property of a plain object gives, [undefined] being
    [None]: the object's own string, or, when the object has no such
    property of its own, the member of that name it inherits from
    [Object.prototype] (a function, or the prototype itself for
    [__proto__]). *)
Inductive Member : Type :=
  | Own (v : string)
  | Inherited (name : string).

(** The names every plain object inherits from [Object.prototype]. *)
Definition object_prototype : list string :=
  ["constructor"; "hasOwnProperty"; "isPrototypeOf"; "propertyIsEnumerable";
   "toLocaleString"; "toString"; "valueOf"; "__proto__";
   "__defineGetter__"; "__defineSetter__";
   "__lookupGetter__"; "__lookupSetter__"].

(** [obj[name]] on a plain object with the own properties [obj]. *)
Definition member (obj : gmap string string) (name : string) : option Member :=
  match obj !! name with
  | Some v => Some (Own v)
  | None =>
      if bool_decide (name ∈ object_prototype) then Some (Inherited name)
      else None
  end.

(** Truthiness of what was read: functions and objects are truthy. *)
Definition truthy_member (m : option Member) : bool :=
  match m with
  | Some (Own v) => truthy_str (Some v)
  | Some (Inherited _) => true
  | None => false
  end.

Definition getURL (name : string) (c : t) : option Member :=
  let configured : gmap string string :=
    match settings c with
    | Some s =>
        match core s with
        | Some co => default ∅ (core_urls co)
        | None => ∅
        end
    | None => ∅
    end in
  if truthy_member (member configured name) then member configured name
  else member urls name.

End Config.

(** ** Data model of [src/push/push.ts] *)

(** Modelled from the spec: the class [PushToken] of [./token] is not
    among the sources.  The spec gives it a token string and two
    independent flags, [registered] and [saved]; a freshly constructed
    token carries neither flag. *)
Module PushToken.
Record t : Type := mk {
  token : string;
  registered : bool;
  saved : bool
}.

Definition new (tok : string) : t :=
  {| token := tok; registered := false; saved := false |}.

(** Modelled from the spec: the string representation is by token value. *)
Definition toString (p : t) : string := token p.
End PushToken.

(** [interface ServiceTokenData] *)
Module ServiceTokenData.
Record t : Type := mk {
  token : string;
  app_id : option string;
  user_id : option string
}.
End ServiceTokenData.

(** [PushStorageObject]: the record persisted under ['push_token']. *)
Module PushStorageObject.
Record t : Type := mk { token : string }.
End PushStorageObject.

Module AndroidConfig.
Record t : Type := mk { senderID : option string }.
End AndroidConfig.

Module PluginConfig.
Record t : Type := mk {
  android : option AndroidConfig.t;
  others : list (string * string)
}.
Definition empty : t := {| android := None; others := [] |}.
End PluginConfig.

Module PushOptions.
Record t : Type := mk {
  sender_id : option string;
  debug : option bool;
  pluginConfig : option PluginConfig.t
}.
Definition empty : t :=
  {| sender_id := None; debug := None; pluginConfig := None |}.
End PushOptions.

Module SaveTokenOptions.
Record t : Type := mk { ignore_user : option bool }.
Definition empty : t := {| ignore_user := None |}.
End SaveTokenOptions.

Record IUser : Type := mkUser { id : string }.

(** The collaborators handed to the constructor, as far as the
    coordinator reads them. *)
Record PushDependencies : Type := mkDeps {
  config : Config.t;
  auth_isAuthenticated : bool;
  userService_current : IUser;
  device_isAndroid : bool;
  device_isIOS : bool
}.

(** References into the stores. *)
Definition tokref := nat.     (* a [PushToken] object *)
Definition deferred := nat.   (* a [DeferredPromise] *)
Definition handle := nat.     (* what [PushNotification.init] returns *)

Inductive Value : Type :=
  | VToken (r : tokref)
  | VUndefined.

Inductive Promise : Type :=
  | Pending
  | Resolved (v : Value)
  | Rejected (e : JsError).

(** Closures attached to the native plugin with [plugin.on]. *)
Inductive PluginHandler : Type :=
  | OnRegistrationResolve (d : deferred) (* push.ts 177-182, captures [deferred] *)
  | OnRegistration                       (* push.ts 239-247 *)
  | OnNotification                       (* push.ts 249-257 *)
  | OnError.                             (* push.ts 259-266 *)

#[global] Instance PluginHandler_eq_dec : EqDecision PluginHandler.
Proof. solve_decision. Defined.

Inductive PluginEvent : Type :=
  | EvRegistration (registrationId : string)
  | EvNotification (raw : string)
  | EvError (e : string).

(** Calls made on the native plugin. *)
Inductive PluginCall : Type :=
  | PluginInit (h : handle) (cfg : option PluginConfig.t)
  | PluginUnregister (h : handle).

(** Completion callbacks handed to [client.post(...).end]. *)
Inductive Continuation : Type :=
  | SaveTokenEnd (d : deferred) (tok : tokref) (data : ServiceTokenData.t)
  | UnregisterEnd (d : deferred) (tok : tokref).

Record Request : Type := mkRequest {
  path : string;
  body : ServiceTokenData.t;
  on_end : Continuation
}.

(** Modelled from the spec: [PushMessage.fromPluginData] of [./message]
    is not among the sources; the message keeps the raw payload. *)
Module PushMessage.
Record t : Type := mk { raw : string }.
Definition fromPluginData (data : string) : t := {| raw := data |}.
Definition toString (m : t) : string := raw m.
End PushMessage.

Inductive BusEvent : Type :=
  | PushRegister (tok : string)
  | PushNotification (message : PushMessage.t) (raw : string)
  | PushError (err : string).

Inductive LogLevel : Type := LInfo | LWarn | LError.

Record LogEntry : Type := mkLog {
  level : LogLevel;
  text : string;
  detail : option JsError
}.

(** ** The state: the fields of [Push] and the collaborators it drives *)

Record Push : Type := mkPush {
  (* fields of the class *)
  deps : PushDependencies;
  options : PushOptions.t;
  plugin : option handle;
  blockRegistration : bool;
  blockUnregister : bool;
  blockSaveToken : bool;
  registered : bool;
  _token : option tokref;
  (* collaborators *)
  storage : gmap string PushStorageObject.t;   (* IStorage *)
  heap : list PushToken.t;                     (* PushToken objects *)
  promises : list Promise;                     (* DeferredPromise objects *)
  ready_subs : list deferred;                  (* emitter.once('device:ready', ...) *)
  handlers : list (handle * PluginHandler);    (* plugin.on(...) *)
  plugin_calls : list PluginCall;
  outbox : list (option Request);              (* HTTP requests; [None] once completed *)
  bus : list BusEvent;                         (* emitter.emit(...) *)
  log : list LogEntry                          (* ILogger *)
}.

(** Field updates ([this.f = v]). *)

Definition with_options (v : PushOptions.t) (s : Push) : Push :=
  {| deps := deps s; options := v; plugin := plugin s;
     blockRegistration := blockRegistration s;
     blockUnregister := blockUnregister s;
     blockSaveToken := blockSaveToken s; registered := registered s;
     _token := _token s; storage := storage s; heap := heap s;
     promises := promises s; ready_subs := ready_subs s;
     handlers := handlers s; plugin_calls := plugin_calls s;
     outbox := outbox s; bus := bus s; log := log s |}.

Definition with_plugin (v : option handle) (s : Push) : Push :=
  {| deps := deps s; options := options s; plugin := v;
     blockRegistration := blockRegistration s;
     blockUnregister := blockUnregister s;
     blockSaveToken := blockSaveToken s; registered := registered s;
     _token := _token s; storage := storage s; heap := heap s;
     promises := promises s; ready_subs := ready_subs s;
     handlers := handlers s; plugin_calls := plugin_calls s;
     outbox := outbox s; bus := bus s; log := log s |}.

Definition with_blockRegistration (v : bool) (s : Push) : Push :=
  {| deps := deps s; options := options s; plugin := plugin s;
     blockRegistration := v; blockUnregister := blockUnregister s;
     blockSaveToken := blockSaveToken s; registered := registered s;
     _token := _token s; storage := storage s; heap := heap s;
     promises := promises s; ready_subs := ready_subs s;
     handlers := handlers s; plugin_calls := plugin_calls s;
     outbox := outbox s; bus := bus s; log := log s |}.

Definition with_blockUnregister (v : bool) (s : Push) : Push :=
  {| deps := deps s; options := options s; plugin := plugin s;
     blockRegistration := blockRegistration s; blockUnregister := v;
     blockSaveToken := blockSaveToken s; registered := registered s;
     _token := _token s; storage := storage s; heap := heap s;
     promises := promises s; ready_subs := ready_subs s;
     handlers := handlers s; plugin_calls := plugin_calls s;
     outbox := outbox s; bus := bus s; log := log s |}.

Definition with_blockSaveToken (v : bool) (s : Push) : Push :=
  {| deps := deps s; options := options s; plugin := plugin s;
     blockRegistration := blockRegistration s;
     blockUnregister := blockUnregister s; blockSaveToken := v;
     registered := registered s; _token := _token s; storage := storage s;
     heap := heap s; promises := promises s; ready_subs := ready_subs s;
     handlers := handlers s; plugin_calls := plugin_calls s;
     outbox := outbox s; bus := bus s; log := log s |}.

Definition with_registered (v : bool) (s : Push) : Push :=
  {| deps := deps s; options := options s; plugin := plugin s;
     blockRegistration := blockRegistration s;
     blockUnregister := blockUnregister s;
     blockSaveToken := blockSaveToken s; registered := v; _token := _token s;
     storage := storage s; heap := heap s; promises := promises s;
     ready_subs := ready_subs s; handlers := handlers s;
     plugin_calls := plugin_calls s; outbox := outbox s; bus := bus s;
     log := log s |}.

Definition with_token (v : option tokref) (s : Push) : Push :=
  {| deps := deps s; options := options s; plugin := plugin s;
     blockRegistration := blockRegistration s;
     blockUnregister := blockUnregister s;
     blockSaveToken := blockSaveToken s; registered := registered s;
     _token := v; storage := storage s; heap := heap s;
     promises := promises s; ready_subs := ready_subs s;
     handlers := handlers s; plugin_calls := plugin_calls s;
     outbox := outbox s; bus := bus s; log := log s |}.

Definition with_storage (v : gmap string PushStorageObject.t) (s : Push) : Push :=
  {| deps := deps s; options := options s; plugin := plugin s;
     blockRegistration := blockRegistration s;
     blockUnregister := blockUnregister s;
     blockSaveToken := blockSaveToken s; registered := registered s;
     _token := _token s; storage := v; heap := heap s;
     promises := promises s; ready_subs := ready_subs s;
     handlers := handlers s; plugin_calls := plugin_calls s;
     outbox := outbox s; bus := bus s; log := log s |}.

Definition with_heap (v : list PushToken.t) (s : Push) : Push :=
  {| deps := deps s; options := options s; plugin := plugin s;
     blockRegistration := blockRegistration s;
     blockUnregister := blockUnregister s;
     blockSaveToken := blockSaveToken s; registered := registered s;
     _token := _token s; storage := storage s; heap := v;
     promises := promises s; ready_subs := ready_subs s;
     handlers := handlers s; plugin_calls := plugin_calls s;
     outbox := outbox s; bus := bus s; log := log s |}.

Definition with_promises (v : list Promise) (s : Push) : Push :=
  {| deps := deps s; options := options s; plugin := plugin s;
     blockRegistration := blockRegistration s;
     blockUnregister := blockUnregister s;
     blockSaveToken := blockSaveToken s; registered := registered s;
     _token := _token s; storage := storage s; heap := heap s; promises := v;
     ready_subs := ready_subs s; handlers := handlers s;
     plugin_calls := plugin_calls s; outbox := outbox s; bus := bus s;
     log := log s |}.

Definition with_ready_subs (v : list deferred) (s : Push) : Push :=
  {| deps := deps s; options := options s; plugin := plugin s;
     blockRegistration := blockRegistration s;
     blockUnregister := blockUnregister s;
     blockSaveToken := blockSaveToken s; registered := registered s;
     _token := _token s; storage := storage s; heap := heap s;
     promises := promises s; ready_subs := v; handlers := handlers s;
     plugin_calls := plugin_calls s; outbox := outbox s; bus := bus s;
     log := log s |}.

Definition with_handlers (v : list (handle * PluginHandler)) (s : Push) : Push :=
  {| deps := deps s; options := options s; plugin := plugin s;
     blockRegistration := blockRegistration s;
     blockUnregister := blockUnregister s;
     blockSaveToken := blockSaveToken s; registered := registered s;
     _token := _token s; storage := storage s; heap := heap s;
     promises := promises s; ready_subs := ready_subs s; handlers := v;
     plugin_calls := plugin_calls s; outbox := outbox s; bus := bus s;
     log := log s |}.

Definition with_plugin_calls (v : list PluginCall) (s : Push) : Push :=
  {| deps := deps s; options := options s; plugin := plugin s;
     blockRegistration := blockRegistration s;
     blockUnregister := blockUnregister s;
     blockSaveToken := blockSaveToken s; registered := registered s;
     _token := _token s; storage := storage s; heap := heap s;
     promises := promises s; ready_subs := ready_subs s;
     handlers := handlers s; plugin_calls := v; outbox := outbox s;
     bus := bus s; log := log s |}.

Definition with_outbox (v : list (option Request)) (s : Push) : Push :=
  {| deps := deps s; options := options s; plugin := plugin s;
     blockRegistration := blockRegistration s;
     blockUnregister := blockUnregister s;
     blockSaveToken := blockSaveToken s; registered := registered s;
     _token := _token s; storage := storage s; heap := heap s;
     promises := promises s; ready_subs := ready_subs s;
     handlers := handlers s; plugin_calls := plugin_calls s; outbox := v;
     bus := bus s; log := log s |}.

Definition with_bus (v : list BusEvent) (s : Push) : Push :=
  {| deps := deps s; options := options s; plugin := plugin s;
     blockRegistration := blockRegistration s;
     blockUnregister := blockUnregister s;
     blockSaveToken := blockSaveToken s; registered := registered s;
     _token := _token s; storage := storage s; heap := heap s;
     promises := promises s; ready_subs := ready_subs s;
     handlers := handlers s; plugin_calls := plugin_calls s;
     outbox := outbox s; bus := v; log := log s |}.

Definition with_log (v : list LogEntry) (s : Push) : Push :=
  {| deps := deps s; options := options s; plugin := plugin s;
     blockRegistration := blockRegistration s;
     blockUnregister := blockUnregister s;
     blockSaveToken := blockSaveToken s; registered := registered s;
     _token := _token s; storage := storage s; heap := heap s;
     promises := promises s; ready_subs := ready_subs s;
     handlers := handlers s; plugin_calls := plugin_calls s;
     outbox := outbox s; bus := bus s; log := v |}.

(** ** A state-and-exception monad for the methods

    A method runs on the state and either returns or throws; the effects
    performed before a throw stay in the state, as in JavaScript. *)

Inductive result (A : Type) : Type :=
  | Ok (a : A)
  | Throw (e : JsError).
Arguments Ok {A} a.
Arguments Throw {A} e.

Definition M (A : Type) : Type := Push → result A * Push.

Definition ret {A : Type} (a : A) : M A := λ s, (Ok a, s).

Definition bind {A B : Type} (m : M A) (k : A → M B) : M B :=
  λ s, match m s with
       | (Ok a, s') => k a s'
       | (Throw e, s') => (Throw e, s')
       end.

Definition throw {A : Type} (e : JsError) : M A := λ s, (Throw e, s).
Definition gets {A : Type} (f : Push → A) : M A := λ s, (Ok (f s), s).
Definition modify (f : Push → Push) : M unit := λ s, (Ok tt, f s).
Definition when (b : bool) (m : M unit) : M unit := if b then m else ret tt.

Declare Scope js_scope.
Delimit Scope js_scope with js.
Notation "'let!' x ':=' m 'in' k" := (bind m (λ x, k))
  (at level 10, x name, m at level 100, k at level 200) : js_scope.
Notation "m ';;' k" := (bind m (λ _, k))
  (at level 100, k at level 200, right associativity) : js_scope.
Local Open Scope js_scope.

Definition exec {A : Type} (m : M A) (s : Push) : Push := snd (m s).
Definition eval {A : Type} (m : M A) (s : Push) : result A := fst (m s).

(** ** Collaborators *)

(** [new DeferredPromise()], [deferred.resolve], [deferred.reject]: a
    promise settles once; later settlements are ignored. *)
Definition new_DeferredPromise : M deferred :=
  let! d := gets (λ s, length (promises s)) in
  modify (λ s, with_promises (promises s ++ [Pending]) s) ;;
  ret d.

Definition settle (d : deferred) (p : Promise) : M unit :=
  modify (λ s,
    match promises s !! d with
    | Some Pending => with_promises (<[d := p]> (promises s)) s
    | _ => s
    end).

Definition resolve (d : deferred) (v : Value) : M unit := settle d (Resolved v).
Definition reject (d : deferred) (e : JsError) : M unit := settle d (Rejected e).

(** [new PushToken(tok)]: a fresh object in the heap. *)
Definition new_PushToken (tok : string) : M tokref :=
  let! r := gets (λ s, length (heap s)) in
  modify (λ s, with_heap (heap s ++ [PushToken.new tok]) s) ;;
  ret r.

(** Reading a field of a token object; a reference that denotes no
    object behaves as [undefined]. *)
Definition deref (r : tokref) : M PushToken.t :=
  let! h := gets heap in
  match h !! r with
  | Some t => ret t
  | None => throw (TypeError "Cannot read properties of undefined")
  end.

Definition set_registered (r : tokref) (b : bool) : M unit :=
  let! t := deref r in
  modify (λ s, with_heap
    (<[r := {| PushToken.token := PushToken.token t;
               PushToken.registered := b;
               PushToken.saved := PushToken.saved t |}]> (heap s)) s).

Definition set_saved (r : tokref) (b : bool) : M unit :=
  let! t := deref r in
  modify (λ s, with_heap
    (<[r := {| PushToken.token := PushToken.token t;
               PushToken.registered := PushToken.registered t;
               PushToken.saved := b |}]> (heap s)) s).

(** [IStorage]: [get], [set], [delete]. *)
Definition storage_get (key : string) : M (option PushStorageObject.t) :=
  gets (λ s, storage s !! key).

Definition storage_set (key : string) (v : PushStorageObject.t) : M unit :=
  modify (λ s, with_storage (<[key := v]> (storage s)) s).

Definition storage_delete (key : string) : M unit :=
  modify (λ s, with_storage (delete key (storage s)) s).

(** [ILogger] *)
Definition logger (lvl : LogLevel) (msg : string) (e : option JsError) : M unit :=
  modify (λ s, with_log (log s ++ [mkLog lvl msg e]) s).

(** [IEventEmitter] *)
Definition emitter_emit (e : BusEvent) : M unit :=
  modify (λ s, with_bus (bus s ++ [e]) s).

Definition emitter_once_device_ready (d : deferred) : M unit :=
  modify (λ s, with_ready_subs (ready_subs s ++ [d]) s).

(** [IClient]: [client.post(path).send(body).end(callback)] *)
Definition client_post (p : string) (b : ServiceTokenData.t) (k : Continuation) : M unit :=
  modify (λ s, with_outbox (outbox s ++ [Some (mkRequest p b k)]) s).

(** The native plugin: [init], [on], [unregister]. *)
Definition plugin_init (h : handle) (cfg : option PluginConfig.t) : M handle :=
  modify (λ s, with_plugin_calls (plugin_calls s ++ [PluginInit h cfg]) s) ;;
  ret h.

Definition plugin_on (h : handle) (k : PluginHandler) : M unit :=
  modify (λ s, with_handlers (handlers s ++ [(h, k)]) s).

Definition plugin_unregister (h : handle) : M unit :=
  modify (λ s, with_plugin_calls (plugin_calls s ++ [PluginUnregister h]) s).

(** ** The class [Push] *)

(** [constructor(deps, options = {})].  The parameter property assigns
    [this.options = options] first; [options] and [this.options] are the
    same object throughout.  [stored] is what [deps.storage] holds when
    the coordinator is built; the logger starts empty. *)
Definition constructor (dp : PushDependencies) (opts : PushOptions.t)
    (stored : gmap string PushStorageObject.t) : Push :=
  let fresh (o : PushOptions.t) (lg : list LogEntry) : Push :=
    {| deps := dp; options := o; plugin := None;
       blockRegistration := false; blockUnregister := false;
       blockSaveToken := false; registered := false; _token := None;
       storage := stored; heap := []; promises := []; ready_subs := [];
       handlers := []; plugin_calls := []; outbox := []; bus := [];
       log := lg |} in
  if device_isAndroid dp && negb (truthy_str (PushOptions.sender_id opts)) then
    fresh opts
      [mkLog LError
         "Ionic Push: GCM project number not found (http://docs.ionic.io/docs/push-android-setup)"
         None]
  else
    let pc : PluginConfig.t := default PluginConfig.empty (PushOptions.pluginConfig opts) in
    let pc : PluginConfig.t :=
      if device_isAndroid dp then
        let a : AndroidConfig.t :=
          default (AndroidConfig.mk None) (PluginConfig.android pc) in
        let a : AndroidConfig.t :=
          if negb (truthy_str (AndroidConfig.senderID a))
          then AndroidConfig.mk (PushOptions.sender_id opts)
          else a in
        {| PluginConfig.android := Some a; PluginConfig.others := PluginConfig.others pc |}
      else pc in
    fresh {| PushOptions.sender_id := PushOptions.sender_id opts;
             PushOptions.debug := PushOptions.debug opts;
             PushOptions.pluginConfig := Some pc |} [].

(** [get token()] *)
Definition get_token : M (option tokref) :=
  let! t := gets _token in
  when (negb (truthy_obj t))
    (let! stored := storage_get "push_token" in
     match stored with
     | None => throw (TypeError "Cannot read property 'token' of undefined")
     | Some o =>
         let! n := new_PushToken (PushStorageObject.token o) in
         modify (with_token (Some n))
     end) ;;
  gets _token.

(** [set token(val)] *)
Definition set_token (val : option tokref) : M unit :=
  match val with
  | None => storage_delete "push_token"
  | Some r =>
      let! t := deref r in
      storage_set "push_token" {| PushStorageObject.token := PushToken.token t |}
  end ;;
  modify (with_token val).

(** [saveToken(token, options = {})] *)
Definition saveToken (token : tokref) (opts : SaveTokenOptions.t) : M deferred :=
  let! deferred := new_DeferredPromise in
  let! tok := deref token in
  let! app := gets (λ s, Config.get "app_id" (config (deps s))) in
  let tokenData : ServiceTokenData.t :=
    {| ServiceTokenData.token := PushToken.token tok;
       ServiceTokenData.app_id := app;
       ServiceTokenData.user_id := None |} in
  let! tokenData :=
    (if negb (truthy_bool (SaveTokenOptions.ignore_user opts)) then
       let! user := gets (λ s, userService_current (deps s)) in
       let! authenticated := gets (λ s, auth_isAuthenticated (deps s)) in
       if authenticated then
         ret {| ServiceTokenData.token := ServiceTokenData.token tokenData;
                ServiceTokenData.app_id := ServiceTokenData.app_id tokenData;
                ServiceTokenData.user_id := Some (id user) |}
       else ret tokenData
     else ret tokenData) in
  let! blocked := gets blockSaveToken in
  (if negb blocked then
     client_post "/push/tokens" tokenData (SaveTokenEnd deferred token tokenData)
   else
     reject deferred (NewError "A token save operation is already in progress.")) ;;
  ret deferred.

(** The completion callback of [saveToken] (push.ts 135-149). *)
Definition saveToken_end (deferred : deferred) (token : tokref)
    (tokenData : ServiceTokenData.t) (err : option JsError) : M unit :=
  match err with
  | Some e =>
      modify (with_blockSaveToken false) ;;
      logger LError "Ionic Push:" (Some e) ;;
      reject deferred e
  | None =>
      modify (with_blockSaveToken false) ;;
      (let! tok := deref token in
       logger LInfo ("Ionic Push: saved push token: " ++ PushToken.toString tok) None) ;;
      when (truthy_str (ServiceTokenData.user_id tokenData))
        (logger LInfo
           ("Ionic Push: added push token to user: "
            ++ default "" (ServiceTokenData.user_id tokenData)) None) ;;
      set_saved token true ;;
      resolve deferred (VToken token)
  end.

(** [_getPushPlugin()]: [window.PushNotification], with a log line when
    it is missing. *)
Definition _getPushPlugin (window_PushNotification : option handle) : M (option handle) :=
  when (negb (truthy_obj window_PushNotification))
    (let! mobile := gets (λ s, device_isIOS (deps s) || device_isAndroid (deps s)) in
     if mobile then
       logger LError
         "Ionic Push: PushNotification plugin is required. Have you run `ionic plugin add phonegap-plugin-push` ?"
         None
     else
       logger LWarn
         "Ionic Push: Disabled! Native push notifications will not work in a browser. Run your app on an actual device to use push."
         None) ;;
  ret window_PushNotification.

(** [this.plugin.on(...)]: a [TypeError] when [this.plugin] is unset. *)
Definition this_plugin_on (k : PluginHandler) : M unit :=
  let! p := gets plugin in
  match p with
  | Some h => plugin_on h k
  | None => throw (TypeError "Cannot read property 'on' of undefined")
  end.

(** [_callbackRegistration()] *)
Definition _callbackRegistration : M unit :=
  this_plugin_on OnRegistration ;;
  this_plugin_on OnNotification ;;
  this_plugin_on OnError.

(** [register()] *)
Definition register : M deferred :=
  let! deferred := new_DeferredPromise in
  let! blocked := gets blockRegistration in
  (if blocked then
     reject deferred (NewError "Another registration is already in progress.")
   else
     modify (with_blockRegistration true) ;;
     emitter_once_device_ready deferred) ;;
  ret deferred.

(** The [device:ready] callback of [register] (push.ts 172-188).  The
    environment supplies [window.PushNotification]: [None] when the
    plugin is absent, [Some h] when it is present and its [init] returns
    the handle [h]. *)
Definition register_device_ready (deferred : deferred)
    (window_PushNotification : option handle) : M unit :=
  let! pushPlugin := _getPushPlugin window_PushNotification in
  match pushPlugin with
  | Some factory =>
      let! cfg := gets (λ s, PushOptions.pluginConfig (options s)) in
      let! h := plugin_init factory cfg in
      modify (with_plugin (Some h)) ;;
      this_plugin_on (OnRegistrationResolve deferred) ;;
      _callbackRegistration ;;
      modify (with_registered true)
  | None =>
      reject deferred (NewError "Push plugin not found! See logs.")
  end.

(** The plugin's event handlers. *)
Definition plugin_handler (k : PluginHandler) (ev : PluginEvent) : M unit :=
  match k, ev with
  | OnRegistrationResolve deferred, EvRegistration registrationId =>
      modify (with_blockRegistration false) ;;
      (let! n := new_PushToken registrationId in set_token (Some n)) ;;
      (let! t := get_token in
       match t with
       | Some r => set_registered r true
       | None => throw (TypeError "Cannot set property 'registered' of null")
       end) ;;
      let! t := get_token in
      resolve deferred (match t with Some r => VToken r | None => VUndefined end)
  | OnRegistration, EvRegistration registrationId =>
      (let! n := new_PushToken registrationId in set_token (Some n)) ;;
      (let! dbg := gets (λ s, truthy_bool (PushOptions.debug (options s))) in
       when dbg
         (let! t := get_token in
          match t with
          | Some r =>
              let! tok := deref r in
              logger LInfo
                ("Ionic Push (debug): device token registered: " ++ PushToken.toString tok)
                None
          | None => logger LInfo "Ionic Push (debug): device token registered: null" None
          end)) ;;
      emitter_emit (PushRegister registrationId)
  | OnNotification, EvNotification data =>
      let message := PushMessage.fromPluginData data in
      (let! dbg := gets (λ s, truthy_bool (PushOptions.debug (options s))) in
       when dbg
         (logger LInfo
            ("Ionic Push (debug): notification received: " ++ PushMessage.toString message)
            None)) ;;
      emitter_emit (PushNotification message data)
  | OnError, EvError e =>
      (let! dbg := gets (λ s, truthy_bool (PushOptions.debug (options s))) in
       when dbg
         (logger LError "Ionic Push (debug): unexpected error occured." None ;;
          logger LError "Ionic Push:" (Some (NewError e)))) ;;
      emitter_emit (PushError e)
  | _, _ => ret tt
  end.

(** [unregister()] *)
Definition unregister : M deferred :=
  let! deferred := new_DeferredPromise in
  let! blocked := gets blockUnregister in
  (if negb blocked then
     let! pushToken := get_token in
     match pushToken with
     | None => resolve deferred VUndefined
     | Some r =>
         let! tok := deref r in
         let! app := gets (λ s, Config.get "app_id" (config (deps s))) in
         let tokenData : ServiceTokenData.t :=
           {| ServiceTokenData.token := PushToken.token tok;
              ServiceTokenData.app_id := app;
              ServiceTokenData.user_id := None |} in
         (let! p := gets plugin in
          match p with
          | Some h => plugin_unregister h
          | None => ret tt
          end) ;;
         client_post "/push/tokens/invalidate" tokenData (UnregisterEnd deferred r)
     end
   else
     reject deferred (NewError "An unregister operation is already in progress.")) ;;
  modify (with_blockUnregister true) ;;
  ret deferred.

(** The completion callback of [unregister] (push.ts 216-227). *)
Definition unregister_end (deferred : deferred) (pushToken : tokref)
    (err : option JsError) : M unit :=
  modify (with_blockUnregister false) ;;
  match err with
  | Some e =>
      logger LError "Ionic Push:" (Some e) ;;
      reject deferred e
  | None =>
      (let! tok := deref pushToken in
       logger LInfo ("Ionic Push: unregistered push token: " ++ PushToken.token tok) None) ;;
      set_token None ;;
      resolve deferred VUndefined
  end.

(** ** The environment: how the pending closures get run *)

(** The event bus delivers [device:ready] to the one-shot subscription
    made by the [register()] call that owns [d]; the subscription is
    dropped before its callback runs. *)
Definition deliver_device_ready (d : deferred)
    (window_PushNotification : option handle) : M unit :=
  let! subs := gets ready_subs in
  if bool_decide (d ∈ subs) then
    modify (with_ready_subs (List.remove Nat.eq_dec d subs)) ;;
    register_device_ready d window_PushNotification
  else ret tt.

(** The native plugin emits [ev] on the handle [h]: every handler
    attached to [h] runs, in the order of attachment. *)
Fixpoint run_handlers (hs : list (handle * PluginHandler)) (h : handle)
    (ev : PluginEvent) : M unit :=
  match hs with
  | [] => ret tt
  | (h', k) :: rest =>
      (if Nat.eqb h' h then plugin_handler k ev else ret tt) ;;
      run_handlers rest h ev
  end.

Definition plugin_emit (h : handle) (ev : PluginEvent) : M unit :=
  let! hs := gets handlers in
  run_handlers hs h ev.

(** The HTTP client completes the [i]-th request it was given, with
    [err] set on failure; a completion callback runs once. *)
Definition client_end (i : nat) (err : option JsError) : M unit :=
  let! out := gets outbox in
  match out !! i with
  | Some (Some rq) =>
      modify (with_outbox (<[i := None]> out)) ;;
      match on_end rq with
      | SaveTokenEnd d tok data => saveToken_end d tok data err
      | UnregisterEnd d tok => unregister_end d tok err
      end
  | _ => ret tt
  end.

(** What can happen to a coordinator, one turn of the event loop at a
    time. *)
Inductive Action : Type :=
  | CallRegister
  | CallSaveToken (token : tokref) (opts : SaveTokenOptions.t)
  | CallUnregister
  | DeviceReady (d : deferred) (window_PushNotification : option handle)
  | PluginEmits (h : handle) (ev : PluginEvent)
  | HttpEnds (i : nat) (err : option JsError).

Definition step (a : Action) (s : Push) : Push :=
  match a with
  | CallRegister => exec register s
  | CallSaveToken token opts => exec (saveToken token opts) s
  | CallUnregister => exec unregister s
  | DeviceReady d pn => exec (deliver_device_ready d pn) s
  | PluginEmits h ev => exec (plugin_emit h ev) s
  | HttpEnds i err => exec (client_end i err) s
  end.

Definition run (tr : list Action) (s : Push) : Push :=
  fold_left (λ st a, step a st) tr s.

(** The promise a call returned, as the caller observes it. *)
Definition promise_of (d : deferred) (s : Push) : option Promise := promises s !! d.

(** * The Cordova loader ([src/cordova.ts], class [Cordova])

    Strings are sequences of code units below 256.  The document is seen
    through its script elements, in document order: those of the head,
    then those of the body.  [document.addEventListener] and
    [emitter.on] record closures; a DOM event runs the listeners that
    are registered for it when it is dispatched. *)

Module Cordova.

(** Closures handed to [emitter.on] by [registerEventHandlers]. *)
Inductive BusHandler : Type :=
  | SetClosed (b : bool).   (* [this.app.closed = b] *)

(** Closures handed to [document.addEventListener] by [bootstrap]. *)
Inductive DomListener : Type :=
  | OnDeviceReady           (* cordova.ts 38-46 *)
  | Forward (e : string).   (* cordova.ts 42-44, captures [e] *)

Inductive Logged : Type :=
  | Info (msg : string)
  | InfoError (msg : string) (e : string).

(** [decodeURI] returns or throws a [URIError]. *)
Inductive Decoded : Type :=
  | DecodedAs (v : string)
  | URIError (message : string).

Record t : Type := mk {
  (* fields of the class *)
  app_closed : option bool;                     (* [this.app.closed] *)
  deviceType : string;                          (* [this.device.deviceType] *)
  has_logger : bool;                            (* whether [this.logger] is set *)
  (* the page *)
  cordova_defined : bool;                       (* [typeof cordova !== 'undefined'] *)
  head_scripts : list (option string);          (* [src] of the scripts in the head *)
  body_scripts : list (option string);          (* [src] of the scripts after it *)
  location_href : string;
  location_search : string;
  decodeURI : string → Decoded;
  dom_listeners : list (string * DomListener);
  (* the event bus and the logger *)
  bus_handlers : list (string * BusHandler);
  emitted : list string;
  logged : list Logged
}.

Definition with_app_closed (v : option bool) (s : t) : t :=
  {| app_closed := v; deviceType := deviceType s; has_logger := has_logger s;
     cordova_defined := cordova_defined s; head_scripts := head_scripts s;
     body_scripts := body_scripts s; location_href := location_href s;
     location_search := location_search s; decodeURI := decodeURI s;
     dom_listeners := dom_listeners s; bus_handlers := bus_handlers s;
     emitted := emitted s; logged := logged s |}.

Definition with_head_scripts (v : list (option string)) (s : t) : t :=
  {| app_closed := app_closed s; deviceType := deviceType s;
     has_logger := has_logger s; cordova_defined := cordova_defined s;
     head_scripts := v; body_scripts := body_scripts s;
     location_href := location_href s; location_search := location_search s;
     decodeURI := decodeURI s; dom_listeners := dom_listeners s;
     bus_handlers := bus_handlers s; emitted := emitted s; logged := logged s |}.

Definition with_dom_listeners (v : list (string * DomListener)) (s : t) : t :=
  {| app_closed := app_closed s; deviceType := deviceType s;
     has_logger := has_logger s; cordova_defined := cordova_defined s;
     head_scripts := head_scripts s; body_scripts := body_scripts s;
     location_href := location_href s; location_search := location_search s;
     decodeURI := decodeURI s; dom_listeners := v;
     bus_handlers := bus_handlers s; emitted := emitted s; logged := logged s |}.

Definition with_bus_handlers (v : list (string * BusHandler)) (s : t) : t :=
  {| app_closed := app_closed s; deviceType := deviceType s;
     has_logger := has_logger s; cordova_defined := cordova_defined s;
     head_scripts := head_scripts s; body_scripts := body_scripts s;
     location_href := location_href s; location_search := location_search s;
     decodeURI := decodeURI s; dom_listeners := dom_listeners s;
     bus_handlers := v; emitted := emitted s; logged := logged s |}.

Definition with_emitted (v : list string) (s : t) : t :=
  {| app_closed := app_closed s; deviceType := deviceType s;
     has_logger := has_logger s; cordova_defined := cordova_defined s;
     head_scripts := head_scripts s; body_scripts := body_scripts s;
     location_href := location_href s; location_search := location_search s;
     decodeURI := decodeURI s; dom_listeners := dom_listeners s;
     bus_handlers := bus_handlers s; emitted := v; logged := logged s |}.

Definition with_logged (v : list Logged) (s : t) : t :=
  {| app_closed := app_closed s; deviceType := deviceType s;
     has_logger := has_logger s; cordova_defined := cordova_defined s;
     head_scripts := head_scripts s; body_scripts := body_scripts s;
     location_href := location_href s; location_search := location_search s;
     decodeURI := decodeURI s; dom_listeners := dom_listeners s;
     bus_handlers := bus_handlers s; emitted := emitted s; logged := v |}.

(** [if (this.logger) { this.logger.info(...) }] *)
Definition info (l : Logged) (s : t) : t :=
  if has_logger s then with_logged (logged s ++ [l]) s else s.

(** [document.getElementsByTagName('script')], as the [src] attributes. *)
Definition scripts (s : t) : list (option string) :=
  head_scripts s ++ body_scripts s.

(** [str.split('/')] *)
Fixpoint split_slash (str : string) : list string :=
  match str with
  | EmptyString => [EmptyString]
  | String c rest =>
      if Ascii.eqb c "/"%char then EmptyString :: split_slash rest
      else match split_slash rest with
           | part :: parts => String c part :: parts
           | [] => [String c EmptyString]
           end
  end.

(** [parts[parts.length - 1] === 'cordova.js'], for a script with a
    non-empty [src]. *)
Definition is_cordova_js (src : option string) : bool :=
  match src with
  | Some script =>
      truthy_str (Some script)
      && match last (split_slash script) with
         | Some part => String.eqb part "cordova.js"
         | None => false
         end
  | None => false
  end.

(** The loop of [isAvailable] over the scripts (cordova.ts 112-131).
    Nothing in its [try] block can throw, so the [catch] never runs. *)
Fixpoint includes_cordova_js (l : list (option string)) : bool :=
  match l with
  | [] => false
  | script :: rest =>
      if is_cordova_js script then true else includes_cordova_js rest
  end.

(** [isAvailable()] *)
Definition isAvailable (s : t) : bool * t :=
  let s := info (Info "Ionic Cordova: searching for cordova.js") s in
  if cordova_defined s then
    (true, info (Info "Ionic Cordova: cordova.js has already been loaded") s)
  else if includes_cordova_js (scripts s) then
    (true, info (Info "Ionic Cordova: cordova.js has previously been included.") s)
  else (false, s).

(** The regular expression
    [/cordova_js_bootstrap_resource=(.*?)(&|#|$)/i]. *)

(** Case folding of the [i] flag, on code units below 256 that can meet
    the letters of the pattern. *)
Definition fold_case (c : ascii) : ascii :=
  let n := nat_of_ascii c in
  if Nat.leb 65 n && Nat.leb n 90 then ascii_of_nat (n + 32) else c.

(** The literal part of the pattern, matched at the start of [str]:
    what follows it. *)
Fixpoint match_literal (pat str : string) : option string :=
  match pat, str with
  | EmptyString, _ => Some str
  | String p pat', String c str' =>
      if Ascii.eqb (fold_case p) (fold_case c) then match_literal pat' str'
      else None
  | String _ _, EmptyString => None
  end.

(** [(.*?)(&|#|$)] matched at the start of [str]: the first group.  The
    dot matches no line terminator. *)
Fixpoint match_group (str : string) : option string :=
  match str with
  | EmptyString => Some EmptyString
  | String c rest =>
      if Ascii.eqb c "&"%char || Ascii.eqb c "#"%char then Some EmptyString
      else if Ascii.eqb c "010"%char || Ascii.eqb c "013"%char then None
      else String c <$> match_group rest
  end.

(** [str.match(re)], as [resource[1]]: the leftmost match. *)
Fixpoint bootstrap_resource (str : string) : option string :=
  match match_literal "cordova_js_bootstrap_resource=" str ≫= match_group with
  | Some resource => Some resource
  | None =>
      match str with
      | EmptyString => None
      | String _ rest => bootstrap_resource rest
      end
  end.

(** The script source [load()] chooses (cordova.ts 64-89), with what
    the [catch] logs. *)
Definition cordovaSrc (s : t) : string * t :=
  if String.eqb (deviceType s) "android" then
    if String.eqb (String.substring 0 4 (location_href s)) "file"
    then ("file:///android_asset/www/cordova.js", s)
    else ("cordova.js", s)
  else if String.eqb (deviceType s) "ipad" || String.eqb (deviceType s) "iphone" then
    match bootstrap_resource (location_search s) with
    | Some resource =>
        match decodeURI s resource with
        | DecodedAs v => (v, s)
        | URIError e =>
            ("cordova.js",
             info (InfoError "Ionic Cordova:" e)
               (info (Info "Ionic Cordova: could not find cordova_js_bootstrap_resource query param") s))
        end
    | None => ("cordova.js", s)
    end
  else ("cordova.js", s).

(** [load()] *)
Definition load (s : t) : t :=
  let (available, s) := isAvailable s in
  if negb available then
    let (src, s) := cordovaSrc s in
    let s := with_head_scripts (head_scripts s ++ [Some src]) s in
    info (Info "Ionic Cordova: injecting cordova.js") s
  else s.

(** [registerEventHandlers()] *)
Definition registerEventHandlers (s : t) : t :=
  with_bus_handlers
    (bus_handlers s ++ [("cordova:pause", SetClosed true);
                        ("cordova:resume", SetClosed false)]) s.

(** [constructor(deps, options = {})]: the page and the bus as they are
    when the object is built. *)
Definition constructor (closed : option bool) (device : string) (logger : bool)
    (page : t) : t :=
  registerEventHandlers
    {| app_closed := closed; deviceType := device; has_logger := logger;
       cordova_defined := cordova_defined page;
       head_scripts := head_scripts page; body_scripts := body_scripts page;
       location_href := location_href page;
       location_search := location_search page; decodeURI := decodeURI page;
       dom_listeners := dom_listeners page; bus_handlers := bus_handlers page;
       emitted := emitted page; logged := logged page |}.

(** Modelled from the spec: [emitter.emit(event, data)] of the event
    bus, which is not among the sources; the handlers subscribed to the
    event run in the order of subscription. *)
Fixpoint run_bus_handlers (hs : list (string * BusHandler)) (event : string)
    (s : t) : t :=
  match hs with
  | [] => s
  | (name, SetClosed b) :: rest =>
      run_bus_handlers rest event
        (if String.eqb name event then with_app_closed (Some b) s else s)
  end.

Definition emit (event : string) (s : t) : t :=
  run_bus_handlers (bus_handlers s) event (with_emitted (emitted s ++ [event]) s).

(** The listeners registered by [bootstrap()]. *)
Definition listener (l : DomListener) (s : t) : t :=
  match l with
  | OnDeviceReady =>
      let s := emit "cordova:deviceready" s in
      fold_left
        (λ st e, with_dom_listeners (dom_listeners st ++ [(e, Forward e)]) st)
        ["pause"; "resume"] s
  | Forward e => emit ("cordova:" ++ e) s
  end.

(** The document dispatches the event [name]. *)
Fixpoint run_listeners (ls : list (string * DomListener)) (name : string)
    (s : t) : t :=
  match ls with
  | [] => s
  | (n, l) :: rest =>
      run_listeners rest name (if String.eqb n name then listener l s else s)
  end.

Definition dispatch (name : string) (s : t) : t :=
  run_listeners (dom_listeners s) name s.

(** [bootstrap()] *)
Definition bootstrap (s : t) : t :=
  load (with_dom_listeners (dom_listeners s ++ [("deviceready", OnDeviceReady)]) s).

(** What [app.closed] should be after the DOM events [events], [ready]
    telling whether [deviceready] has been seen: the last [pause] or
    [resume] that came after the first [deviceready] decides. *)
Fixpoint track_closed (ready : bool) (closed : option bool)
    (events : list string) : option bool :=
  match events with
  | [] => closed
  | e :: rest =>
      if String.eqb e "deviceready" then track_closed true closed rest
      else if ready && String.eqb e "pause" then track_closed ready (Some true) rest
      else if ready && String.eqb e "resume" then track_closed ready (Some false) rest
      else track_closed ready closed rest
  end.

(** The inverse of [split('/')]: [parts.join('/')]. *)
Fixpoint join_slash (parts : list string) : string :=
  match parts with
  | [] => EmptyString
  | [part] => part
  | part :: rest => (part ++ String "/"%char (join_slash rest))%string
  end.

(** A string without [/]. *)
Fixpoint slash_free (str : string) : bool :=
  match str with
  | EmptyString => true
  | String c rest => negb (Ascii.eqb c "/"%char) && slash_free rest
  end.

(** The two forwarding listeners one [deviceready] adds. *)
Definition forwarders : list (string * DomListener) :=
  [("pause", Forward "pause"); ("resume", Forward "resume")].

(** The object after [bootstrap()] and [n] [deviceready] events: its
    two bus handlers, its [deviceready] listener and [n] pairs of
    forwarding listeners. *)
Definition wired (n : nat) (s : t) : Prop :=
  bus_handlers s = [("cordova:pause", SetClosed true);
                    ("cordova:resume", SetClosed false)]
  ∧ dom_listeners s
    = ("deviceready", OnDeviceReady) :: concat (replicate n forwarders).

(** A page on which nothing has been registered yet. *)
Definition blank_page (cordova : bool) (head body : list (option string))
    (href search : string) (decode : string → Decoded) : t :=
  {| app_closed := None; deviceType := ""; has_logger := false;
     cordova_defined := cordova; head_scripts := head; body_scripts := body;
     location_href := href; location_search := search; decodeURI := decode;
     dom_listeners := []; bus_handlers := []; emitted := []; logged := [] |}.

(** Two strings equal up to the case of their letters. *)
Fixpoint eq_ci (a b : string) : bool :=
  match a, b with
  | EmptyString, EmptyString => true
  | String x a', String y b' => Ascii.eqb (fold_case x) (fold_case y) && eq_ci a' b'
  | _, _ => false
  end.

(** A string the first group can match whole: no [&], no [#], no line
    terminator. *)
Fixpoint plain (str : string) : bool :=
  match str with
  | EmptyString => true
  | String c rest =>
      negb (Ascii.eqb c "&"%char || Ascii.eqb c "#"%char
            || Ascii.eqb c "010"%char || Ascii.eqb c "013"%char)
      && plain rest
  end.

(** What may follow the resource in the query: nothing, or a part
    starting with [&] or [#]. *)
Definition ends_group (tail : string) : bool :=
  match tail with
  | EmptyString => true
  | String c _ => Ascii.eqb c "&"%char || Ascii.eqb c "#"%char
  end.

End Cordova.

(** * The vocabulary of the properties *)

(** ** Error values the methods produce *)

Definition in_progress : JsError :=
  NewError "Another registration is already in progress.".

Definition plugin_not_found : JsError :=
  NewError "Push plugin not found! See logs.".

Definition save_in_progress : JsError :=
  NewError "A token save operation is already in progress.".

Definition unregister_in_progress : JsError :=
  NewError "An unregister operation is already in progress.".

Definition no_stored_token : JsError :=
  TypeError "Cannot read property 'token' of undefined".

Definition gcm_not_found : LogEntry :=
  mkLog LError
    "Ionic Push: GCM project number not found (http://docs.ionic.io/docs/push-android-setup)"
    None.

(** The record the setter persists for the token string [t]. *)
Definition stored_token (t : string) : PushStorageObject.t :=
  {| PushStorageObject.token := t |}.

(** ** Relating the state before a method to the state after

    [keeps R m] says that running [m], whether it returns or throws,
    relates the state before to the state after by [R]. *)
Definition keeps (R : relation Push) {A : Type} (m : M A) : Prop :=
  ∀ s, R s (exec m s).

(** The observation [f] is unchanged. *)
Definition same {B : Type} (f : Push → B) : relation Push := λ s s', f s = f s'.

(** A flag that is set stays set; a flag that is clear stays clear. *)
Definition stays_true (f : Push → bool) : relation Push :=
  λ s s', f s = true → f s' = true.

Definition stays_false (f : Push → bool) : relation Push :=
  λ s s', f s = false → f s' = false.

(** ** Registration *)

(** The plugin's registration event, which is what completes a
    registration and clears its lock. *)
Definition is_registration_event (a : Action) : bool :=
  match a with
  | PluginEmits _ (EvRegistration _) => true
  | _ => false
  end.




(** What the registration event has achieved for the call owning [d],
    once the handler of that call has run. *)
Definition registered_as (d : deferred) (t : string) (s : Push) : Prop :=
  storage s !! "push_token" = Some (stored_token t)
  ∧ ∃ r tok,
      promise_of d s = Some (Resolved (VToken r))
      ∧ heap s !! r = Some tok
      ∧ PushToken.token tok = t
      ∧ PushToken.registered tok = true.

(** A coordinator is inert for registration when no [register()] call,
    made at any point of any run, ever has its promise resolved. *)
Definition inert_for_registration (s : Push) : Prop :=
  ∀ (tr tr' : list Action) (d : deferred) (s1 : Push) (v : Value),
    register (run tr s) = (Ok d, s1) →
    promise_of d (run tr' s1) ≠ Some (Resolved v).

(** ** Unregistration *)

(** An unregister request that has been issued and not completed. *)
Definition is_unregister_end (o : option Request) : bool :=
  match o with
  | Some rq =>
      match on_end rq with
      | UnregisterEnd _ _ => true
      | SaveTokenEnd _ _ _ => false
      end
  | None => false
  end.

(** No unregister is in flight: the lock is clear and no unregister
    request is outstanding. *)
Definition unregister_idle (s : Push) : bool :=
  negb (blockUnregister s)
  && forallb (λ o, negb (is_unregister_end o)) (outbox s).

(** The unregister whose request is number [n] is in flight, and is the
    only one. *)
Definition unregister_in_flight (n : nat) (s : Push) : Prop :=
  blockUnregister s = true
  ∧ is_unregister_end (mjoin (outbox s !! n)) = true
  ∧ ∀ j, j ≠ n → is_unregister_end (mjoin (outbox s !! j)) = false.

(** The lock and the outbox as one observation. *)
Definition unregister_view (s : Push) : bool * list (option Request) :=
  (blockUnregister s, outbox s).

(** Every action but the completion of request [n]. *)
Definition not_completion_of (n : nat) (a : Action) : bool :=
  match a with
  | HttpEnds i _ => negb (Nat.eqb i n)
  | _ => true
  end.

(** ** Scenarios *)

Definition app_config : Config.t :=
  Config.register
    {| Config.core := Some (Config.mkCore {[ "app_id" := "a1b2c3" ]} None) |}
    (Config.mkConfig None).

(** A browser: neither Android nor iOS, nobody logged in. *)
Definition browser : PushDependencies :=
  {| config := app_config; auth_isAuthenticated := false;
     userService_current := mkUser ""; device_isAndroid := false;
     device_isIOS := false |}.

(** An Android device with user [u1] logged in. *)
Definition android_u1 : PushDependencies :=
  {| config := app_config; auth_isAuthenticated := true;
     userService_current := mkUser "u1"; device_isAndroid := true;
     device_isIOS := false |}.

Definition with_sender : PushOptions.t :=
  {| PushOptions.sender_id := Some "1234567890"; PushOptions.debug := None;
     PushOptions.pluginConfig := None |}.

(** Options without [sender_id], the sender id being given to the
    plugin directly. *)
Definition sender_in_plugin_config : PushOptions.t :=
  {| PushOptions.sender_id := None; PushOptions.debug := None;
     PushOptions.pluginConfig :=
       Some {| PluginConfig.android :=
                 Some {| AndroidConfig.senderID := Some "1234567890" |};
               PluginConfig.others := [] |} |}.

(** A coordinator in a browser, nothing stored. *)
Definition in_browser : Push := constructor browser PushOptions.empty ∅.

(** A coordinator on Android, and the same after it has registered: the
    plugin (handle 7) reported the identifier ["abc123"]. *)
Definition on_android : Push := constructor android_u1 with_sender ∅.

Definition after_registration : Push :=
  run [CallRegister; DeviceReady 0 (Some 7);
       PluginEmits 7 (EvRegistration "abc123")] on_android.


(** The request [unregister()] issues in that state. *)
Definition invalidate_abc123 : Request :=
  {| path := "/push/tokens/invalidate";
     body := {| ServiceTokenData.token := "abc123";
                ServiceTokenData.app_id := Some "a1b2c3";
                ServiceTokenData.user_id := None |};
     on_end := UnregisterEnd 1 1 |}.

(** ** The token cache *)

(** The cache is write-through: a cached token object and the stored
    record carry the same token string. *)
Definition cache_consistent (s : Push) : Prop :=
  match _token s with
  | Some r =>
      ∃ tok, heap s !! r = Some tok
             ∧ storage s !! "push_token" = Some (stored_token (PushToken.token tok))
  | None => True
  end.

(** A property of the state that, once it holds, holds afterwards. *)
Definition preserved (P : Push → Prop) : relation Push := λ s s', P s → P s'.

(** What the cache invariant depends on. *)
Definition cache_view (s : Push)
    : option tokref * gmap string PushStorageObject.t * list PushToken.t :=
  (_token s, storage s, heap s).

(** What a plugin notification or error must not touch: everything but
    the event bus and the log. *)
Definition passive_view (s : Push) :=
  (deps s, options s, plugin s,
   (blockRegistration s, blockUnregister s, blockSaveToken s, registered s),
   (_token s, storage s, heap s),
   (promises s, ready_subs s, handlers s, plugin_calls s, outbox s)).

(** With [options.debug] off a handler logs nothing (and no handler
    changes the options). *)
Definition quiet : relation Push :=
  λ s s', options s' = options s
          ∧ (truthy_bool (PushOptions.debug (options s)) = false → log s' = log s).

(** ** Configuration *)

(** The URL map of the registered settings, empty when there is none
    ([(this.settings && this.settings.core && this.settings.core.urls) || {}]). *)
Definition configured_urls (c : Config.t) : gmap string string :=
  match Config.settings c with
  | Some st =>
      match Config.core st with
      | Some co => default ∅ (Config.core_urls co)
      | None => ∅
      end
  | None => ∅
  end.

(** ** Further scenarios *)

(** The request [saveToken] issues after the registration, logged in
    as [u1]. *)
Definition save_abc123_data : ServiceTokenData.t :=
  {| ServiceTokenData.token := "abc123";
     ServiceTokenData.app_id := Some "a1b2c3";
     ServiceTokenData.user_id := Some "u1" |}.

Definition save_abc123 : Request :=
  {| path := "/push/tokens"; body := save_abc123_data;
     on_end := SaveTokenEnd 1 1 save_abc123_data |}.

(** Settings that point the API at a staging server. *)
Definition staging_config : Config.t :=
  Config.register
    {| Config.core :=
         Some (Config.mkCore {[ "app_id" := "a1b2c3" ]}
                 (Some {[ "api" := "https://staging.ionic.io" ]})) |}
    (Config.mkConfig None).

(** [decodeURI] on strings whose escapes are ASCII ([%00] to [%7F]): an
    escape is replaced by its character, unless that is one of the
    reserved [; / ? : @ & = + $ , #], which stays escaped as written; a
    [%] that is not followed by two hexadecimal digits raises
    [URIError].  An escape from [%80] on starts a UTF-8 sequence, whose
    character may lie beyond the strings modelled here: the scenarios
    have none, and it is answered like a malformed one. *)
Definition hex_digit (c : ascii) : option nat :=
  let n := nat_of_ascii c in
  if Nat.leb 48 n && Nat.leb n 57 then Some (n - 48)%nat
  else if Nat.leb 65 n && Nat.leb n 70 then Some (n - 55)%nat
  else if Nat.leb 97 n && Nat.leb n 102 then Some (n - 87)%nat
  else None.

Definition uri_reserved : list ascii := String.list_ascii_of_string ";/?:@&=+$,#".

Fixpoint decode_escapes (str : string) : option string :=
  match str with
  | EmptyString => Some EmptyString
  | String c rest =>
      if Ascii.eqb c "%"%char then
        match rest with
        | String a (String b rest') =>
            match hex_digit a, hex_digit b with
            | Some x, Some y =>
                let v := (16 * x + y)%nat in
                if Nat.ltb v 128 then
                  let decoded := ascii_of_nat v in
                  if existsb (Ascii.eqb decoded) uri_reserved
                  then option_map (λ r, String c (String a (String b r)))
                         (decode_escapes rest')
                  else option_map (String decoded) (decode_escapes rest')
                else None
            | _, _ => None
            end
        | _ => None
        end
      else option_map (String c) (decode_escapes rest)
  end.

Definition decodeURI_ascii (str : string) : Cordova.Decoded :=
  match decode_escapes str with
  | Some v => Cordova.DecodedAs v
  | None => Cordova.URIError "URI malformed"
  end.

(** An Android page loaded from a file, and an iPad page whose query
    names the bootstrap resource; neither includes cordova. *)
Definition android_page : Cordova.t :=
  Cordova.constructor None "android" true
    (Cordova.blank_page false [Some "js/app.js"; None] []
       "file:///android_asset/www/index.html" "" decodeURI_ascii).

Definition ipad_page : Cordova.t :=
  Cordova.constructor None "ipad" true
    (Cordova.blank_page false [Some "js/app.js"] []
       "http://localhost:8100/"
       "?Cordova_JS_Bootstrap_Resource=my%20app/cordova.js&debug=1"
       decodeURI_ascii).

(** * Properties *)

(** ** Frame reasoning

    With [R] a preorder, [keeps R] composes along [bind], so what a
    method leaves alone follows from what its primitives leave alone. *)

Section Keeps.
Context (R : relation Push) `{!PreOrder R}.

Lemma keeps_ret {A : Type} (a : A) : keeps R (ret a).
Proof. intros s. reflexivity. Qed.

Lemma keeps_throw {A : Type} (e : JsError) : keeps R (@throw A e).
Proof. intros s. reflexivity. Qed.

Lemma keeps_gets {A : Type} (f : Push → A) : keeps R (gets f).
Proof. intros s. reflexivity. Qed.

Lemma keeps_modify (f : Push → Push) : (∀ s, R s (f s)) → keeps R (modify f).
Proof. intros H s. apply H. Qed.

Lemma keeps_bind {A B : Type} (m : M A) (k : A → M B) :
  keeps R m → (∀ a, keeps R (k a)) → keeps R (bind m k).
Proof.
  intros Hm Hk s. unfold exec, bind.
  specialize (Hm s). unfold exec in Hm.
  destruct (m s) as [[a|e] s']; simpl in *; [|done].
  etrans; [exact Hm|]. apply Hk.
Qed.

Lemma keeps_when (b : bool) (m : M unit) : keeps R m → keeps R (when b m).
Proof. intros H. destruct b; simpl; [exact H | apply keeps_ret]. Qed.

(** An event is handled the way each of its handlers is. *)
Lemma keeps_run_handlers (hs : list (handle * PluginHandler)) (h : handle)
    (ev : PluginEvent) :
  (∀ k, keeps R (plugin_handler k ev)) → keeps R (run_handlers hs h ev).
Proof.
  intros Hk. induction hs as [|[h' k] hs IH]; simpl; [apply keeps_ret|].
  apply keeps_bind; [|intros _; exact IH].
  destruct (Nat.eqb h' h); [apply Hk|apply keeps_ret].
Qed.

Lemma keeps_plugin_emit (h : handle) (ev : PluginEvent) :
  (∀ k, keeps R (plugin_handler k ev)) → keeps R (plugin_emit h ev).
Proof.
  intros Hk. unfold plugin_emit. apply keeps_bind; [apply keeps_gets|].
  intros hs. by apply keeps_run_handlers.
Qed.
End Keeps.

(** Breaks a method down to its primitives; the side conditions left
    are about single field updates. *)
Ltac keeps_step :=
  match goal with
  | |- PreOrder _ => apply _
  | |- keeps _ (ret _) => apply keeps_ret
  | |- keeps _ (throw _) => apply keeps_throw
  | |- keeps _ (gets _) => apply keeps_gets
  | |- keeps _ (modify _) => apply keeps_modify
  | |- keeps _ (bind _ _) => apply keeps_bind
  | |- keeps _ (when _ _) => apply keeps_when
  | |- keeps _ (match ?x with _ => _ end) => destruct x
  | |- ∀ _, keeps _ _ => intros ?
  end.

Ltac keeps_tac := repeat keeps_step.

#[local] Instance same_preorder {B : Type} (f : Push → B) : PreOrder (same f).
Proof. split; [intros s; reflexivity | intros x y z; unfold same; congruence]. Qed.

#[local] Instance stays_true_preorder (f : Push → bool) : PreOrder (stays_true f).
Proof. split; [intros s H; exact H | intros x y z; unfold stays_true; auto]. Qed.

#[local] Instance stays_false_preorder (f : Push → bool) : PreOrder (stays_false f).
Proof. split; [intros s H; exact H | intros x y z; unfold stays_false; auto]. Qed.

Ltac field_tac :=
  unfold same, stays_true, stays_false; intros; simpl;
  repeat case_match; simpl; try done; auto.

Ltac unfold_prims :=
  unfold resolve, reject, this_plugin_on, set_registered, set_saved;
  unfold settle, new_DeferredPromise, new_PushToken, deref,
    storage_get, storage_set, storage_delete,
    logger, emitter_emit, emitter_once_device_ready, client_post,
    plugin_init, plugin_on, plugin_unregister.

Ltac unfold_methods :=
  unfold deliver_device_ready, plugin_emit, client_end;
  unfold register, register_device_ready, saveToken, saveToken_end,
    unregister, unregister_end;
  unfold _callbackRegistration, _getPushPlugin, get_token, set_token.

(** Solves [keeps R m] for a method [m] built from the primitives. *)
Ltac keeps_method :=
  unfold_methods; unfold_prims; keeps_tac; field_tac.

(** ** The registration lock *)

Lemma plugin_emit_lock_stays (h : handle) (ev : PluginEvent) :
  (∀ t, ev ≠ EvRegistration t) →
  keeps (stays_true blockRegistration) (plugin_emit h ev).
Proof.
  intros Hev. apply keeps_plugin_emit; [apply _|]. intros k.
  destruct k, ev; simpl; try (exfalso; eapply Hev; reflexivity);
    keeps_method.
Qed.

Lemma step_lock_stays (a : Action) (s : Push) :
  is_registration_event a = false →
  blockRegistration s = true →
  blockRegistration (step a s) = true.
Proof.
  intros Ha. revert s.
  destruct a as [| | | |h ev|]; simpl;
    match goal with
    | |- ∀ s, _ → blockRegistration (exec ?m s) = true =>
        change (keeps (stays_true blockRegistration) m)
    end; try (keeps_method; fail).
  apply plugin_emit_lock_stays. intros t ->. discriminate Ha.
Qed.

Lemma run_lock_stays (tr : list Action) (s : Push) :
  forallb (λ a, negb (is_registration_event a)) tr = true →
  blockRegistration s = true →
  blockRegistration (run tr s) = true.
Proof.
  revert s. induction tr as [|a tr IH]; intros s Htr Hs; [exact Hs|].
  simpl in Htr. apply andb_prop in Htr as [Ha Htr].
  apply negb_true_iff in Ha.
  unfold run. simpl. apply IH; [exact Htr|].
  by apply step_lock_stays.
Qed.

(** An object allocated at the end of a store, read or updated there. *)
Lemma insert_new {A : Type} (l : list A) (x y : A) :
  <[length l := y]> (l ++ [x]) = l ++ [y].
Proof.
  rewrite insert_app_r_alt by done. by rewrite Nat.sub_diag.
Qed.

Lemma lookup_new {A : Type} (l : list A) (x : A) :
  (l ++ [x]) !! length l = Some x.
Proof. by apply list_lookup_middle. Qed.

(** With the lock held, [register()] hands back a rejected promise and
    touches nothing else. *)
Lemma register_locked (s : Push) :
  blockRegistration s = true →
  register s = (Ok (length (promises s)),
                with_promises (promises s ++ [Rejected in_progress]) s).
Proof.
  intros Hl. unfold register, new_DeferredPromise, reject, settle, bind,
    gets, modify, ret. simpl. rewrite Hl. simpl.
  rewrite lookup_new, insert_new. reflexivity.
Qed.

(** Without the lock, [register()] takes it and subscribes to
    [device:ready]; the promise stays pending. *)
Lemma register_unlocked (s : Push) :
  blockRegistration s = false →
  register s = (Ok (length (promises s)),
                with_ready_subs (ready_subs s ++ [length (promises s)])
                  (with_blockRegistration true
                     (with_promises (promises s ++ [Pending]) s))).
Proof.
  intros Hl. unfold register, new_DeferredPromise, emitter_once_device_ready,
    bind, gets, modify, ret. simpl. rewrite Hl. reflexivity.
Qed.

Lemma register_takes_lock (s : Push) : blockRegistration (exec register s) = true.
Proof.
  unfold exec. destruct (blockRegistration s) eqn:Hl.
  - by rewrite register_locked.
  - by rewrite register_unlocked.
Qed.






(** In particular, of any run of consecutive [register()] calls at most
    the first is admitted: the calls after it add no subscription. *)
Lemma register_repeat_subscribes_once (n : nat) (s : Push) :
  ready_subs (run (replicate n CallRegister) (exec register s))
  = ready_subs (exec register s).
Proof.
  induction n as [|n IH] using nat_ind; [reflexivity|].
  replace (S n) with (n + 1) by lia.
  rewrite replicate_add. unfold run in *. rewrite fold_left_app. simpl.
  set (s1 := fold_left _ (replicate n CallRegister) _) in *.
  assert (Hl : blockRegistration s1 = true).
  { apply (run_lock_stays (replicate n CallRegister)); [|apply register_takes_lock].
    clear. induction n; [done|]. simpl. done. }
  unfold exec at 1. rewrite (register_locked _ Hl). simpl. exact IH.
Qed.


(** ** The token getter *)

(** Nothing cached and nothing stored: the getter reads [.token] off
    the missing record. *)
Lemma get_token_throws (s : Push) :
  _token s = None →
  storage s !! "push_token" = None →
  get_token s = (Throw no_stored_token, s).
Proof.
  intros Hc Hs. unfold get_token, storage_get, bind, gets, when. simpl.
  rewrite Hc. simpl. rewrite Hs. reflexivity.
Qed.

(** A cached token is returned as it is. *)
Lemma get_token_cached (s : Push) (r : tokref) :
  _token s = Some r → get_token s = (Ok (Some r), s).
Proof.
  intros Hc. unfold get_token, bind, gets, when, ret. simpl.
  rewrite Hc. simpl. by rewrite Hc.
Qed.

(** A stored record is loaded into a fresh token object, which is then
    cached. *)
Lemma get_token_stored (s : Push) (o : PushStorageObject.t) :
  _token s = None →
  storage s !! "push_token" = Some o →
  get_token s =
    (Ok (Some (length (heap s))),
     with_token (Some (length (heap s)))
       (with_heap (heap s ++ [PushToken.new (PushStorageObject.token o)]) s)).
Proof.
  intros Hc Hs. unfold get_token, storage_get, new_PushToken, bind, gets,
    modify, when, ret. simpl.
  rewrite Hc. simpl. rewrite Hs. reflexivity.
Qed.

(** Whenever the getter returns, it returns an object: the value is
    never [null] or [undefined]. *)
Lemma get_token_returns_object (s s' : Push) (v : option tokref) :
  get_token s = (Ok v, s') → ∃ r, v = Some r.
Proof.
  destruct (_token s) as [r|] eqn:Hc.
  - rewrite (get_token_cached _ _ Hc). intros [= <- <-]. eauto.
  - destruct (storage s !! "push_token") as [o|] eqn:Hs.
    + rewrite (get_token_stored _ _ Hc Hs). intros [= <- <-]. eauto.
    + rewrite (get_token_throws _ Hc Hs). discriminate.
Qed.

(** C10.  With the in-memory cache empty and no record under
    ['push_token'] in storage, reading the [token] getter does not
    produce a token: it dereferences the missing record and throws a
    [TypeError]; the coordinator is left as it was, so the next read
    throws again. *)
Theorem get_token_absent (s : Push) :
  _token s = None →
  storage s !! "push_token" = None →
  eval get_token s = Throw no_stored_token
  ∧ exec get_token s = s
  ∧ eval get_token (exec get_token s) = Throw no_stored_token.
Proof.
  intros Hc Hs. unfold eval, exec.
  rewrite (get_token_throws s Hc Hs). simpl.
  by rewrite (get_token_throws s Hc Hs).
Qed.

(** ** A registration without the plugin *)

(** The [device:ready] callback never touches the registration lock,
    whether the plugin is there or not. *)
Lemma device_ready_keeps_lock (d : deferred) (pn : option handle) :
  keeps (same blockRegistration) (deliver_device_ready d pn).
Proof. keeps_method. Qed.

(** C2, on the code: [register()] in a browser, then [device:ready].
    The promise is rejected with "Push plugin not found! See logs.", the
    registration lock is still held afterwards, and the next
    [register()] is turned away as if a registration were running. *)
Theorem register_plugin_absent_leaves_lock :
  let s := run [CallRegister; DeviceReady 0 None] in_browser in
  promise_of 0 s = Some (Rejected plugin_not_found)
  ∧ blockRegistration s = true
  ∧ ready_subs s = []
  ∧ promise_of 1 (exec register s) = Some (Rejected in_progress).
Proof. vm_compute. done. Qed.

(** The same on every state: no later action short of a plugin
    registration event frees the lock that the failed call left. *)
Lemma register_plugin_absent_blocks (s : Push) (d : deferred) (tr : list Action) :
  blockRegistration s = true →
  forallb (λ a, negb (is_registration_event a)) tr = true →
  blockRegistration (run tr (exec (deliver_device_ready d None) s)) = true.
Proof.
  intros Hl Htr. apply run_lock_stays; [exact Htr|].
  rewrite <- Hl. symmetry. apply (device_ready_keeps_lock d None s).
Qed.

(** ** The save lock *)




(** C3, on the code: two [saveToken] calls in a row on a registered
    coordinator.  The first call issues its request and leaves
    [blockSaveToken] clear; the second call, made while the first
    request is outstanding, issues a second request instead of being
    rejected. *)
Theorem saveToken_second_call_not_rejected :
  let s1 := exec (saveToken 1 SaveTokenOptions.empty) after_registration in
  let s2 := exec (saveToken 1 SaveTokenOptions.empty) s1 in
  blockSaveToken s1 = false
  ∧ path <$> mjoin (outbox s1 !! 0) = Some "/push/tokens"
  ∧ eval (saveToken 1 SaveTokenOptions.empty) s1 = Ok 2
  ∧ promise_of 2 s2 = Some Pending
  ∧ path <$> mjoin (outbox s2 !! 1) = Some "/push/tokens"
  ∧ outbox s2 !! 0 = outbox s1 !! 0.
Proof. vm_compute. done. Qed.

(** ** [unregister()] without a token *)

(** C5, on the code: [unregister()] on a fresh coordinator with nothing
    cached and nothing stored.  The call throws out of the token getter;
    no promise is handed back, the promise it created is still pending,
    and no request is issued. *)
Theorem unregister_without_token_throws :
  eval unregister in_browser = Throw no_stored_token
  ∧ _token in_browser = None
  ∧ storage in_browser !! "push_token" = None
  ∧ promises (exec unregister in_browser) = [Pending]
  ∧ outbox (exec unregister in_browser) = [].
Proof. vm_compute. done. Qed.

(** ** The unregister lock *)

Ltac run_m :=
  unfold_methods; unfold_prims;
  unfold bind, gets, modify, ret, throw, when; simpl.

(** With the lock held, [unregister()] hands back a rejected promise;
    setting the lock again changes nothing. *)
Lemma unregister_locked (s : Push) :
  blockUnregister s = true →
  unregister s = (Ok (length (promises s)),
                  with_promises (promises s ++ [Rejected unregister_in_progress]) s).
Proof.
  intros Hl. run_m. rewrite Hl. simpl.
  rewrite lookup_new, insert_new.
  destruct s; simpl in *; subst; reflexivity.
Qed.

(** Nothing cached, nothing stored: the getter throws before the lock
    is set. *)
Lemma unregister_absent (s : Push) :
  blockUnregister s = false →
  _token s = None →
  storage s !! "push_token" = None →
  unregister s = (Throw no_stored_token, with_promises (promises s ++ [Pending]) s).
Proof.
  intros Hl Hc Hs. run_m. rewrite Hl. simpl. rewrite Hc. simpl.
  rewrite Hs. reflexivity.
Qed.

(** What an admitted [unregister()] leaves behind.  When it returns, it
    has issued exactly one request, whose callback is the one of this
    call, and holds the lock; when it throws, it has issued nothing and
    the lock is clear.  The branch that resolves at once is never
    taken. *)
Lemma unregister_unlocked (s : Push) :
  blockUnregister s = false →
  match unregister s with
  | (Throw _, s1) => blockUnregister s1 = false ∧ outbox s1 = outbox s
  | (Ok d, s1) =>
      d = length (promises s)
      ∧ blockUnregister s1 = true
      ∧ promise_of d s1 = Some Pending
      ∧ ∃ r tok,
          heap s1 !! r = Some tok
          ∧ outbox s1 = outbox s ++
              [Some {| path := "/push/tokens/invalidate";
                       body := {| ServiceTokenData.token := PushToken.token tok;
                                  ServiceTokenData.app_id :=
                                    Config.get "app_id" (config (deps s));
                                  ServiceTokenData.user_id := None |};
                       on_end := UnregisterEnd d r |}]
  end.
Proof.
  intros Hl. run_m. rewrite Hl. simpl.
  destruct (_token s) as [r|] eqn:Hc; simpl.
  - rewrite Hc. simpl. destruct (heap s !! r) as [tok|] eqn:Hr; simpl; [|done].
    destruct (plugin s); simpl; (split_and!; [done|done|apply lookup_new|eauto]).
  - destruct (storage s !! "push_token") as [o|]; simpl; [|done].
    rewrite lookup_new. simpl.
    destruct (plugin s); simpl;
      (split_and!; [done|done|apply lookup_new|]);
      eexists _, _; (split; [apply lookup_new|done]).
Qed.

Lemma forallb_lookup {A : Type} (f : A → bool) (l : list A) :
  forallb f l = true ↔ ∀ j x, l !! j = Some x → f x = true.
Proof.
  rewrite forallb_forall. split.
  - intros H j x Hj. apply H. apply list_elem_of_In.
    by eapply list_elem_of_lookup_2.
  - intros H x Hx. apply list_elem_of_In, list_elem_of_lookup_1 in Hx as [j Hj].
    by eapply H.
Qed.

Lemma unregister_in_flight_view (n : nat) (s s' : Push) :
  unregister_view s = unregister_view s' →
  unregister_in_flight n s → unregister_in_flight n s'.
Proof.
  unfold unregister_view, unregister_in_flight. intros [= Hl Ho].
  by rewrite Hl, Ho.
Qed.

Lemma saveToken_end_unregister_view (d : deferred) (tok : tokref)
    (data : ServiceTokenData.t) (err : option JsError) :
  keeps (same unregister_view) (saveToken_end d tok data err).
Proof. keeps_method. Qed.

Lemma register_unregister_view : keeps (same unregister_view) register.
Proof. keeps_method. Qed.

Lemma device_ready_unregister_view (d : deferred) (pn : option handle) :
  keeps (same unregister_view) (deliver_device_ready d pn).
Proof. keeps_method. Qed.

Lemma plugin_emit_unregister_view (h : handle) (ev : PluginEvent) :
  keeps (same unregister_view) (plugin_emit h ev).
Proof.
  apply keeps_plugin_emit; [apply _|]. intros k.
  destruct k, ev; simpl; keeps_method.
Qed.

(** A completed request is no longer outstanding; the others stay. *)
Lemma unregister_in_flight_complete_other (n i : nat) (s : Push) :
  i ≠ n →
  unregister_in_flight n s →
  unregister_in_flight n (with_outbox (<[i := None]> (outbox s)) s).
Proof.
  intros Hi (Hl & Hn & Hj). split_and!; simpl; [done| |].
  - by rewrite list_lookup_insert_ne.
  - intros j Hjn. destruct (decide (j = i)) as [->|Hji].
    + destruct (decide (i < length (outbox s))).
      * by rewrite list_lookup_insert_eq.
      * rewrite list_insert_ge by lia. by apply Hj.
    + rewrite list_lookup_insert_ne by done. by apply Hj.
Qed.

(** A new request that is not an unregister request does not count. *)
Lemma unregister_in_flight_post (n : nat) (rq : Request) (s : Push) :
  is_unregister_end (Some rq) = false →
  unregister_in_flight n s →
  unregister_in_flight n (with_outbox (outbox s ++ [Some rq]) s).
Proof.
  intros Hrq (Hl & Hn & Hj).
  assert (Hlt : n < length (outbox s)).
  { apply lookup_lt_is_Some. destruct (outbox s !! n); [eauto|discriminate]. }
  split_and!; simpl; [done| |].
  - by rewrite lookup_app_l.
  - intros j Hjn. destruct (decide (j < length (outbox s))).
    + rewrite lookup_app_l by done. by apply Hj.
    + rewrite lookup_app_r by lia.
      destruct (j - length (outbox s)) as [|k]; simpl; [exact Hrq|done].
Qed.

(** ** What [saveToken] does *)

(** The record [saveToken] builds for a token object [tok]. *)
Lemma saveToken_returns (token : tokref) (opts : SaveTokenOptions.t)
    (tok : PushToken.t) (s : Push) :
  heap s !! token = Some tok →
  let d := length (promises s) in
  let tokenData :=
    {| ServiceTokenData.token := PushToken.token tok;
       ServiceTokenData.app_id := Config.get "app_id" (config (deps s));
       ServiceTokenData.user_id :=
         if negb (truthy_bool (SaveTokenOptions.ignore_user opts))
            && auth_isAuthenticated (deps s)
         then Some (id (userService_current (deps s)))
         else None |} in
  saveToken token opts s =
    (Ok d,
     if blockSaveToken s then
       with_promises (promises s ++ [Rejected save_in_progress]) s
     else
       with_outbox
         (outbox s ++
            [Some {| path := "/push/tokens"; body := tokenData;
                     on_end := SaveTokenEnd d token tokenData |}])
         (with_promises (promises s ++ [Pending]) s)).
Proof.
  intros Ht. run_m. rewrite Ht. simpl.
  destruct (truthy_bool (SaveTokenOptions.ignore_user opts)); simpl;
    [|destruct (auth_isAuthenticated (deps s)); simpl];
    (destruct (blockSaveToken s); simpl;
     [by rewrite lookup_new, insert_new|done]).
Qed.

(** A [token] argument that is no object makes [token.token] throw. *)
Lemma saveToken_throws (token : tokref) (opts : SaveTokenOptions.t) (s : Push) :
  heap s !! token = None →
  saveToken token opts s =
    (Throw (TypeError "Cannot read properties of undefined"),
     with_promises (promises s ++ [Pending]) s).
Proof. intros Ht. run_m. by rewrite Ht. Qed.

(** ** The unregister lock along a run *)

Lemma step_unregister_in_flight (n : nat) (a : Action) (s : Push) :
  not_completion_of n a = true →
  unregister_in_flight n s →
  unregister_in_flight n (step a s).
Proof.
  intros Ha Hin. destruct a as [|token opts| |d pn|h ev|i err]; simpl.
  - eapply unregister_in_flight_view; [|exact Hin].
    apply register_unregister_view.
  - unfold exec. destruct (heap s !! token) as [tok|] eqn:Ht.
    + rewrite (saveToken_returns _ _ _ _ Ht). simpl.
      destruct (blockSaveToken s).
      * eapply unregister_in_flight_view; [|exact Hin]. done.
      * apply (unregister_in_flight_post n _
                 (with_promises (promises s ++ [Pending]) s)); [done|].
        eapply unregister_in_flight_view; [|exact Hin]. done.
    + rewrite (saveToken_throws _ _ _ Ht). simpl.
      eapply unregister_in_flight_view; [|exact Hin]. done.
  - unfold exec. rewrite unregister_locked by apply Hin. simpl.
    eapply unregister_in_flight_view; [|exact Hin]. done.
  - eapply unregister_in_flight_view; [|exact Hin].
    apply device_ready_unregister_view.
  - eapply unregister_in_flight_view; [|exact Hin].
    apply plugin_emit_unregister_view.
  - simpl in Ha. apply negb_true_iff, Nat.eqb_neq in Ha.
    unfold exec, client_end, bind, gets. simpl.
    destruct (outbox s !! i) as [[rq|]|] eqn:Hi; simpl; [|done|done].
    destruct (on_end rq) as [d tok data|d tok] eqn:Hk.
    + pose proof (unregister_in_flight_complete_other n i s Ha Hin) as Hin'.
      eapply unregister_in_flight_view; [|exact Hin'].
      apply (saveToken_end_unregister_view d tok data err).
    + destruct Hin as (_ & _ & Hj). specialize (Hj i Ha).
      rewrite Hi in Hj. simpl in Hj. by rewrite Hk in Hj.
Qed.

Lemma run_unregister_in_flight (n : nat) (tr : list Action) (s : Push) :
  forallb (not_completion_of n) tr = true →
  unregister_in_flight n s →
  unregister_in_flight n (run tr s).
Proof.
  revert s. induction tr as [|a tr IH]; intros s Htr Hs; [exact Hs|].
  simpl in Htr. apply andb_prop in Htr as [Ha Htr].
  unfold run. simpl. apply IH; [exact Htr|].
  by apply step_unregister_in_flight.
Qed.

Lemma exec_bind_modify {A : Type} (f : Push → Push) (k : unit → M A) (s : Push) :
  exec (modify f ;; k tt) s = exec (k tt) (f s).
Proof. reflexivity. Qed.

(** The completion callback of [unregister] clears the lock first and
    never sets it again; it issues no request. *)
Lemma unregister_end_clears_lock (d : deferred) (r : tokref)
    (err : option JsError) (s : Push) :
  blockUnregister (exec (unregister_end d r err) s) = false
  ∧ outbox (exec (unregister_end d r err) s) = outbox s.
Proof.
  split.
  - unfold unregister_end.
    rewrite (exec_bind_modify _ (λ _,
      match err with
      | Some e => logger LError "Ionic Push:" (Some e) ;; reject d e
      | None =>
          (let! tok := deref r in
           logger LInfo
             ("Ionic Push: unregistered push token: " ++ PushToken.token tok) None) ;;
          set_token None ;; resolve d VUndefined
      end)).
    match goal with
    | |- blockUnregister (exec ?m ?s0) = false =>
        assert (Hk : keeps (stays_false blockUnregister) m) by keeps_method;
        apply (Hk s0)
    end. reflexivity.
  - symmetry.
    assert (Hk : keeps (same outbox) (unregister_end d r err)) by keeps_method.
    apply (Hk s).
Qed.

(** The completion of the in-flight unregister request leaves the
    coordinator idle again. *)
Lemma unregister_completion_idle (n : nat) (err : option JsError) (s : Push) :
  unregister_in_flight n s →
  unregister_idle (exec (client_end n err) s) = true.
Proof.
  intros (Hl & Hn & Hj).
  unfold exec, client_end, bind, gets. simpl.
  destruct (outbox s !! n) as [[rq|]|] eqn:Hi; simpl in Hn; try discriminate.
  destruct (on_end rq) as [|d r] eqn:Hk; [discriminate|]. simpl.
  destruct (unregister_end_clears_lock d r err
              (with_outbox (<[n := None]> (outbox s)) s)) as [Hl' Ho'].
  unfold exec in Hl', Ho'. unfold unregister_idle.
  rewrite Hl', Ho'. simpl.
  apply forallb_lookup. intros j x Hx.
  destruct (decide (j = n)) as [->|Hjn].
  - rewrite list_lookup_insert_eq in Hx by (by eapply lookup_lt_Some).
    by injection Hx as <-.
  - rewrite list_lookup_insert_ne in Hx by done.
    specialize (Hj j Hjn). rewrite Hx in Hj. simpl in Hj. by rewrite Hj.
Qed.

(** C4.  Take a state in which no unregister is in flight (the lock is
    clear and no unregister request is outstanding) and call
    [unregister()].  If the call throws, the coordinator is still idle.
    If it returns, it has issued its request, and from then on, through
    any actions other than the completion of that request: a further
    [unregister()] is rejected with "An unregister operation is already
    in progress." and changes nothing but its own promise; and the
    completion of the request, on success or on failure, leaves the
    coordinator idle again, with the lock clear.  (The rejected calls
    may be part of the actions in between.) *)
Theorem unregister_lock_discipline (s : Push) (tr : list Action)
    (err : option JsError) :
  unregister_idle s = true →
  forallb (not_completion_of (length (outbox s))) tr = true →
  match unregister s with
  | (Throw _, s1) => unregister_idle s1 = true
  | (Ok d, s1) =>
      let s2 := run tr s1 in
      unregister s2 =
        (Ok (length (promises s2)),
         with_promises (promises s2 ++ [Rejected unregister_in_progress]) s2)
      ∧ unregister_idle (exec (client_end (length (outbox s)) err) s2) = true
  end.
Proof.
  intros Hidle Htr. unfold unregister_idle in Hidle.
  apply andb_prop in Hidle as [Hl Hout]. apply negb_true_iff in Hl.
  pose proof (unregister_unlocked s Hl) as Hu.
  destruct (unregister s) as [[d|e] s1].
  - destruct Hu as (-> & Hl1 & _ & r & tok & _ & Ho).
    assert (Hin : unregister_in_flight (length (outbox s)) s1).
    { split_and!; [exact Hl1| |].
      - by rewrite Ho, lookup_new.
      - intros j Hj. rewrite Ho.
        destruct (decide (j < length (outbox s))).
        + rewrite lookup_app_l by done.
          destruct (outbox s !! j) as [x|] eqn:Hx; [|done]. simpl.
          rewrite forallb_lookup in Hout. specialize (Hout j x Hx).
          by apply negb_true_iff in Hout.
        + rewrite lookup_app_r by lia.
          destruct (j - length (outbox s)) as [|k] eqn:Hk; [lia|done]. }
    apply (run_unregister_in_flight _ tr) in Hin; [|exact Htr].
    split.
    + apply unregister_locked, Hin.
    + by apply unregister_completion_idle.
  - destruct Hu as [Hl1 Ho]. unfold unregister_idle.
    by rewrite Hl1, Ho.
Qed.

(** *** Reachable states

    The two situations of the theorem are the only ones a coordinator
    is ever in: after any run from construction either no unregister is
    in flight or exactly one is. *)

Lemma unregister_idle_view (s s' : Push) :
  unregister_view s = unregister_view s' →
  unregister_idle s = unregister_idle s'.
Proof.
  unfold unregister_view, unregister_idle. intros [= Hl Ho]. by rewrite Hl, Ho.
Qed.

Lemma step_unregister_idle (a : Action) (s : Push) :
  unregister_idle s = true →
  unregister_idle (step a s) = true
  ∨ ∃ n, unregister_in_flight n (step a s).
Proof.
  intros Hidle. pose proof Hidle as Hidle'. unfold unregister_idle in Hidle'.
  apply andb_prop in Hidle' as [Hl Hout]. apply negb_true_iff in Hl.
  rewrite forallb_lookup in Hout.
  destruct a as [|token opts| |d pn|h ev|i err]; simpl.
  - left. rewrite <- Hidle. symmetry. apply unregister_idle_view.
    apply register_unregister_view.
  - left. unfold exec. destruct (heap s !! token) as [tok|] eqn:Ht.
    + rewrite (saveToken_returns _ _ _ _ Ht). simpl.
      destruct (blockSaveToken s); [exact Hidle|].
      unfold unregister_idle. simpl. rewrite Hl. simpl.
      rewrite forallb_app. simpl. rewrite andb_true_r.
      by apply forallb_lookup.
    + rewrite (saveToken_throws _ _ _ Ht). exact Hidle.
  - pose proof (unregister_unlocked s Hl) as Hu. unfold exec.
    destruct (unregister s) as [[d|e] s1]; simpl.
    + right. exists (length (outbox s)).
      destruct Hu as (_ & Hl1 & _ & r & tok & _ & Ho).
      split_and!; [exact Hl1|by rewrite Ho, lookup_new|].
      intros j Hj. rewrite Ho.
      destruct (decide (j < length (outbox s))).
      * rewrite lookup_app_l by done.
        destruct (outbox s !! j) as [x|] eqn:Hx; [|done]. simpl.
        specialize (Hout j x Hx). by apply negb_true_iff in Hout.
      * rewrite lookup_app_r by lia.
        destruct (j - length (outbox s)) as [|k] eqn:Hk; [lia|done].
    + left. destruct Hu as [Hl1 Ho]. unfold unregister_idle.
      rewrite Hl1, Ho. simpl. by apply forallb_lookup.
  - left. rewrite <- Hidle. symmetry. apply unregister_idle_view.
    apply device_ready_unregister_view.
  - left. rewrite <- Hidle. symmetry. apply unregister_idle_view.
    apply plugin_emit_unregister_view.
  - left. unfold exec, client_end, bind, gets. simpl.
    destruct (outbox s !! i) as [[rq|]|] eqn:Hi; simpl;
      [|exact Hidle|exact Hidle].
    pose proof (Hout i _ Hi) as Hrq. simpl in Hrq.
    destruct (on_end rq) as [d tok data|d tok] eqn:Hk; [|discriminate].
    match goal with
    | |- unregister_idle ?x = true =>
        change x with (exec (saveToken_end d tok data err)
                         (with_outbox (<[i := None]> (outbox s)) s))
    end.
    rewrite <- (unregister_idle_view _ _
      (saveToken_end_unregister_view d tok data err
         (with_outbox (<[i := None]> (outbox s)) s))).
    unfold unregister_idle. simpl. rewrite Hl. simpl.
    apply forallb_lookup. intros j x Hx.
    destruct (decide (j = i)) as [->|Hji].
    + rewrite list_lookup_insert_eq in Hx by (by eapply lookup_lt_Some).
      by injection Hx as <-.
    + rewrite list_lookup_insert_ne in Hx by done. by eapply Hout.
Qed.

Lemma unregister_idle_or_in_flight (dp : PushDependencies) (o : PushOptions.t)
    (stored : gmap string PushStorageObject.t) (tr : list Action) :
  let s := run tr (constructor dp o stored) in
  unregister_idle s = true ∨ ∃ n, unregister_in_flight n s.
Proof.
  assert (H0 : unregister_idle (constructor dp o stored) = true).
  { unfold constructor. by case_match. }
  simpl.
  assert (Hgen : ∀ s, (unregister_idle s = true ∨ ∃ n, unregister_in_flight n s) →
            unregister_idle (run tr s) = true
            ∨ ∃ n, unregister_in_flight n (run tr s)).
  { induction tr as [|a tr IH]; intros s Hs; [exact Hs|].
    unfold run. simpl. apply IH.
    destruct Hs as [Hs|[n Hs]].
    - by apply step_unregister_idle.
    - destruct (not_completion_of n a) eqn:Ha.
      + right. exists n. by apply step_unregister_in_flight.
      + left. destruct a as [| | | | |i err]; try discriminate.
        simpl in Ha. apply negb_false_iff, Nat.eqb_eq in Ha as ->.
        by apply unregister_completion_idle. }
  apply Hgen. by left.
Qed.

(** ** Completion of the invalidate request *)

(** C6.  Take any state in which an unregister request is outstanding
    (the call reached the remote call; its promise [d] is pending and
    [r] is the token object it captured).  When the request completes
    without error, the cached token and the record under ['push_token']
    are both gone and [d] is resolved.  When it completes with the error
    [e], [d] is rejected with [e], and cache, storage and token objects
    are as they were. *)
Theorem unregister_completion (s : Push) (i : nat) (rq : Request)
    (d : deferred) (r : tokref) (tok : PushToken.t) (err : option JsError) :
  outbox s !! i = Some (Some rq) →
  on_end rq = UnregisterEnd d r →
  promise_of d s = Some Pending →
  heap s !! r = Some tok →
  let s' := exec (client_end i err) s in
  match err with
  | None =>
      _token s' = None
      ∧ storage s' !! "push_token" = None
      ∧ promise_of d s' = Some (Resolved VUndefined)
  | Some e =>
      promise_of d s' = Some (Rejected e)
      ∧ _token s' = _token s
      ∧ storage s' = storage s
      ∧ heap s' = heap s
  end.
Proof.
  unfold promise_of. intros Hi Hk Hd Hr.
  assert (Hlt : d < length (promises s)) by (by eapply lookup_lt_Some).
  unfold exec. run_m. rewrite Hi. simpl. rewrite Hk. simpl.
  destruct err as [e|]; simpl.
  - rewrite Hd. simpl. by rewrite list_lookup_insert_eq.
  - rewrite Hr. simpl. rewrite Hd. simpl.
    rewrite lookup_delete_eq. by rewrite list_lookup_insert_eq.
Qed.

(** An admitted [unregister()] that returns leaves exactly such a
    state behind. *)
Lemma unregister_reaches_remote (s s1 : Push) (d : deferred) :
  blockUnregister s = false →
  unregister s = (Ok d, s1) →
  ∃ rq r tok,
    outbox s1 !! length (outbox s) = Some (Some rq)
    ∧ on_end rq = UnregisterEnd d r
    ∧ promise_of d s1 = Some Pending
    ∧ heap s1 !! r = Some tok
    ∧ path rq = "/push/tokens/invalidate".
Proof.
  intros Hl Hu. pose proof (unregister_unlocked s Hl) as H.
  rewrite Hu in H. destruct H as (_ & _ & Hp & r & tok & Hr & Ho).
  eexists _, r, tok. rewrite Ho, lookup_new. by split_and!.
Qed.

(** ** The record sent by [saveToken] *)



(** ** The plugin's registration event *)

(** The handler attached by [register()] (push.ts 177-182), run on the
    identifier [t]: it creates a token object, writes it through to
    storage and cache, marks that object registered and resolves the
    promise of its call with it. *)
Lemma on_registration_resolve (d : deferred) (t : string) (s : Push) :
  let n := length (heap s) in
  plugin_handler (OnRegistrationResolve d) (EvRegistration t) s =
    (Ok tt,
     exec (resolve d (VToken n))
       (with_heap (heap s ++ [{| PushToken.token := t;
                                 PushToken.registered := true;
                                 PushToken.saved := false |}])
          (with_token (Some n)
             (with_storage (<["push_token" := stored_token t]> (storage s))
                (with_blockRegistration false s))))).
Proof.
  unfold exec. unfold plugin_handler. run_m.
  repeat (progress (rewrite ?lookup_new, ?insert_new; simpl)).
  by destruct (promises s !! d) as [[]|].
Qed.

(** The handler attached by [_callbackRegistration()] (push.ts 239-247):
    it creates a second token object for the same identifier, which
    replaces the first one in the cache, and publishes [push:register]. *)
Lemma on_registration_fields (t : string) (s : Push) :
  ∃ s', plugin_handler OnRegistration (EvRegistration t) s = (Ok tt, s')
    ∧ heap s' = heap s ++ [PushToken.new t]
    ∧ _token s' = Some (length (heap s))
    ∧ storage s' = <["push_token" := stored_token t]> (storage s)
    ∧ promises s' = promises s.
Proof.
  unfold plugin_handler. run_m.
  repeat (progress (rewrite ?lookup_new; simpl)).
  destruct (truthy_bool (PushOptions.debug (options s))); simpl.
  - repeat (progress (rewrite ?lookup_new; simpl)). eauto 10.
  - eauto 10.
Qed.

(** Settling a promise: only a pending promise changes, only that one,
    and nothing else in the state. *)
Lemma settle_pending (d : deferred) (p : Promise) (s : Push) :
  promises s !! d = Some Pending →
  promises (exec (settle d p) s) !! d = Some p.
Proof.
  intros Hd. unfold exec, settle, modify. simpl. rewrite Hd. simpl.
  apply list_lookup_insert_eq. by eapply lookup_lt_Some.
Qed.

Lemma settle_other (d d' : deferred) (p : Promise) (s : Push) :
  d ≠ d' →
  promises (exec (settle d' p) s) !! d = promises s !! d.
Proof.
  intros Hne. unfold exec, settle, modify. simpl.
  destruct (promises s !! d') as [[]|]; simpl; try done.
  by rewrite list_lookup_insert_ne.
Qed.

Lemma settle_settled (d d' : deferred) (p q : Promise) (s : Push) :
  promises s !! d = Some q → q ≠ Pending →
  promises (exec (settle d' p) s) !! d = Some q.
Proof.
  intros Hd Hq. destruct (decide (d = d')) as [<-|Hne].
  - unfold exec, settle, modify. simpl. rewrite Hd. by destruct q.
  - by rewrite settle_other.
Qed.

Lemma settle_rest (d : deferred) (p : Promise) (s : Push) :
  heap (exec (settle d p) s) = heap s
  ∧ storage (exec (settle d p) s) = storage s
  ∧ _token (exec (settle d p) s) = _token s.
Proof.
  unfold exec, settle, modify. simpl.
  by destruct (promises s !! d) as [[]|].
Qed.

Lemma handler_keeps_registered_as (d : deferred) (t : string)
    (k : PluginHandler) (s : Push) :
  registered_as d t s →
  ∃ s', plugin_handler k (EvRegistration t) s = (Ok tt, s')
    ∧ registered_as d t s'.
Proof.
  intros (Hs & r & tok & Hd & Hr & Ht & Hreg). unfold promise_of in Hd.
  assert (Hrl : r < length (heap s)) by (by eapply lookup_lt_Some).
  destruct k as [d'| | |].
  - eexists. split; [apply on_registration_resolve|].
    unfold resolve, registered_as, promise_of.
    destruct (settle_rest d' (Resolved (VToken (length (heap s))))
      (with_heap (heap s ++ [{| PushToken.token := t;
                                PushToken.registered := true;
                                PushToken.saved := false |}])
         (with_token (Some (length (heap s)))
            (with_storage (<["push_token" := stored_token t]> (storage s))
               (with_blockRegistration false s))))) as (-> & -> & _).
    simpl. split; [by rewrite lookup_insert_eq|].
    exists r, tok. split_and!; [|by rewrite lookup_app_l|done|done].
    by apply settle_settled.
  - destruct (on_registration_fields t s) as (s' & -> & Hh & _ & Hst & Hp).
    eexists. split; [reflexivity|].
    split; [by rewrite Hst, lookup_insert_eq|].
    exists r, tok. unfold promise_of. rewrite Hp, Hh.
    by rewrite lookup_app_l.
  - eexists. split; [reflexivity|]. split; [done|]. by exists r, tok.
  - eexists. split; [reflexivity|]. split; [done|]. by exists r, tok.
Qed.

(** Until the handler of the call owning [d] has run, the other
    handlers leave its promise pending. *)
Lemma handler_keeps_pending (d : deferred) (t : string) (k : PluginHandler)
    (s : Push) :
  k ≠ OnRegistrationResolve d →
  promise_of d s = Some Pending →
  ∃ s', plugin_handler k (EvRegistration t) s = (Ok tt, s')
    ∧ promise_of d s' = Some Pending.
Proof.
  intros Hk Hd. unfold promise_of in *. destruct k as [d'| | |].
  - eexists. split; [apply on_registration_resolve|].
    unfold resolve. rewrite settle_other by congruence. exact Hd.
  - destruct (on_registration_fields t s) as (s' & -> & _ & _ & _ & Hp).
    eexists. split; [reflexivity|]. by rewrite Hp.
  - eexists. by split.
  - eexists. by split.
Qed.

(** The handler of the call owning [d], run while [d] is pending. *)
Lemma handler_registers (d : deferred) (t : string) (s : Push) :
  promise_of d s = Some Pending →
  ∃ s', plugin_handler (OnRegistrationResolve d) (EvRegistration t) s = (Ok tt, s')
    ∧ registered_as d t s'.
Proof.
  intros Hd. eexists. split; [apply on_registration_resolve|].
  set (s0 := with_heap _ _).
  destruct (settle_rest d (Resolved (VToken (length (heap s)))) s0)
    as (Hh & Hst & _).
  unfold registered_as, promise_of, resolve. rewrite Hh, Hst.
  split; [subst s0; simpl; by rewrite lookup_insert_eq|].
  eexists (length (heap s)), _. split_and!.
  - by apply settle_pending.
  - subst s0. simpl. apply lookup_new.
  - done.
  - done.
Qed.

Lemma run_handlers_keeps_registered_as (d : deferred) (t : string) (h : handle)
    (hs : list (handle * PluginHandler)) (s : Push) :
  registered_as d t s →
  ∃ s', run_handlers hs h (EvRegistration t) s = (Ok tt, s')
    ∧ registered_as d t s'.
Proof.
  revert s. induction hs as [|[h' k] hs IH]; intros s Hs; simpl.
  - by eexists.
  - unfold bind. destruct (Nat.eqb h' h).
    + destruct (handler_keeps_registered_as d t k s Hs) as (s1 & -> & Hs1).
      by apply IH.
    + simpl. by apply IH.
Qed.

Lemma run_handlers_registers (d : deferred) (t : string) (h : handle)
    (hs : list (handle * PluginHandler)) (s : Push) :
  (h, OnRegistrationResolve d) ∈ hs →
  promise_of d s = Some Pending →
  ∃ s', run_handlers hs h (EvRegistration t) s = (Ok tt, s')
    ∧ registered_as d t s'.
Proof.
  revert s. induction hs as [|[h' k] hs IH]; intros s Hin Hd; simpl.
  - by apply elem_of_nil in Hin.
  - unfold bind.
    destruct (decide ((h', k) = (h, OnRegistrationResolve d))) as [[= -> ->]|Hne].
    + rewrite Nat.eqb_refl.
      destruct (handler_registers d t s Hd) as (s1 & -> & Hs1).
      by apply run_handlers_keeps_registered_as.
    + apply elem_of_cons in Hin as [Heq|Hin]; [congruence|].
      destruct (Nat.eqb h' h) eqn:Hh.
      * apply Nat.eqb_eq in Hh as ->.
        destruct (handler_keeps_pending d t k s) as (s1 & -> & Hs1);
          [congruence|done|].
        by apply IH.
      * simpl. by apply IH.
Qed.

(** C7.  A [register()] call is pending on the plugin handle [h] (its
    handler is attached and its promise [d] is unsettled) and the plugin
    fires [registration] with the identifier [t] on [h].  Then [d] is
    resolved with a token object whose token string is [t] and whose
    [registered] flag is set, storage holds [{token: t}] under
    ['push_token'], and a coordinator that has nothing cached loads a
    token with the string [t] from that storage. *)
Theorem registration_event_round_trip (s : Push) (h : handle) (d : deferred)
    (t : string) :
  (h, OnRegistrationResolve d) ∈ handlers s →
  promise_of d s = Some Pending →
  let s' := exec (plugin_emit h (EvRegistration t)) s in
  (∃ r tok,
     promise_of d s' = Some (Resolved (VToken r))
     ∧ heap s' !! r = Some tok
     ∧ PushToken.token tok = t
     ∧ PushToken.registered tok = true)
  ∧ storage s' !! "push_token" = Some (stored_token t)
  ∧ ∃ r' tok',
      eval get_token (with_token None s') = Ok (Some r')
      ∧ heap (exec get_token (with_token None s')) !! r' = Some tok'
      ∧ PushToken.token tok' = t.
Proof.
  intros Hin Hd s'.
  destruct (run_handlers_registers d t h (handlers s) s Hin Hd)
    as (s1 & Hrun & Hst & Hres).
  assert (Hs' : s' = s1).
  { subst s'. unfold exec, plugin_emit, bind, gets. simpl. by rewrite Hrun. }
  rewrite Hs'. split_and!; [exact Hres|exact Hst|].
  unfold eval, exec.
  rewrite (get_token_stored (with_token None s1) (stored_token t)) by done.
  simpl. eexists _, _. split_and!; [done|apply lookup_new|done].
Qed.

(** ** Construction without a sender id *)

(** C9 as stated fails: on Android, without [sender_id], the error is
    logged, but a later [register()] is admitted, the plugin is
    initialised with the configuration as supplied, and the plugin's
    registration event resolves the call. *)
Lemma missing_sender_id_not_inert :
  let s := constructor android_u1 sender_in_plugin_config ∅ in
  device_isAndroid android_u1 = true
  ∧ PushOptions.sender_id sender_in_plugin_config = None
  ∧ log s = [gcm_not_found]
  ∧ plugin_calls
      (run [CallRegister; DeviceReady 0 (Some 7)] s)
    = [PluginInit 7 (PushOptions.pluginConfig sender_in_plugin_config)]
  ∧ ¬ inert_for_registration s.
Proof.
  split_and!; [done|done|done|done|].
  intros Hinert.
  apply (Hinert [] [DeviceReady 0 (Some 7); PluginEmits 7 (EvRegistration "abc123")]
           0 (exec register (constructor android_u1 sender_in_plugin_config ∅))
           (VToken 0)).
  - vm_compute. reflexivity.
  - vm_compute. reflexivity.
Qed.

(** C9, amended.  On Android without a [sender_id] the constructor
    logs the configuration error and returns a coordinator: the options
    are the ones passed in (the plugin configuration is not filled in),
    nothing else is set.  Registration is not switched off: the first
    [register()] is admitted like on any fresh coordinator. *)
Theorem constructor_missing_sender_id (dp : PushDependencies)
    (opts : PushOptions.t) (stored : gmap string PushStorageObject.t) :
  device_isAndroid dp = true →
  truthy_str (PushOptions.sender_id opts) = false →
  let s := constructor dp opts stored in
  s = {| deps := dp; options := opts; plugin := None;
         blockRegistration := false; blockUnregister := false;
         blockSaveToken := false; registered := false; _token := None;
         storage := stored; heap := []; promises := []; ready_subs := [];
         handlers := []; plugin_calls := []; outbox := []; bus := [];
         log := [gcm_not_found] |}
  ∧ register s =
      (Ok 0, with_ready_subs [0]
               (with_blockRegistration true (with_promises [Pending] s))).
Proof.
  intros Ha Hs s.
  assert (Hc : s = {| deps := dp; options := opts; plugin := None;
         blockRegistration := false; blockUnregister := false;
         blockSaveToken := false; registered := false; _token := None;
         storage := stored; heap := []; promises := []; ready_subs := [];
         handlers := []; plugin_calls := []; outbox := []; bus := [];
         log := [gcm_not_found] |}).
  { subst s. unfold constructor. by rewrite Ha, Hs. }
  split; [exact Hc|]. rewrite Hc. reflexivity.
Qed.

(** With a sender id, or off Android, the constructor logs nothing and
    fills in the plugin configuration. *)
Lemma constructor_configured (dp : PushDependencies) (opts : PushOptions.t)
    (stored : gmap string PushStorageObject.t) :
  device_isAndroid dp && negb (truthy_str (PushOptions.sender_id opts)) = false →
  let s := constructor dp opts stored in
  log s = []
  ∧ is_Some (PushOptions.pluginConfig (options s))
  ∧ (device_isAndroid dp = true →
     ∃ a, (PushOptions.pluginConfig (options s) ≫= PluginConfig.android) = Some a
          ∧ truthy_str (AndroidConfig.senderID a) = true).
Proof.
  intros Hc s. subst s. unfold constructor. rewrite Hc. simpl.
  split_and!; [done|by eexists|].
  intros Ha. rewrite Ha in *. simpl in Hc. apply negb_false_iff in Hc.
  eexists. split; [reflexivity|].
  destruct (truthy_str (AndroidConfig.senderID
              (default {| AndroidConfig.senderID := None |} _))) eqn:Hs;
    simpl; [exact Hs|exact Hc].
Qed.

(** ** The scenarios, evaluated *)

Example config_get_app_id : Config.get "app_id" app_config = Some "a1b2c3".
Proof. reflexivity. Qed.

Example config_get_unregistered :
  Config.get "app_id" (Config.mkConfig None) = None.
Proof. reflexivity. Qed.

Example config_getURL_default :
  Config.getURL "api" app_config = Some (Config.Own "https://api.ionic.io").
Proof. reflexivity. Qed.

(** With a sender id the constructor injects it into the plugin
    configuration. *)
Example on_android_plugin_config :
  PushOptions.pluginConfig (options on_android)
  = Some {| PluginConfig.android :=
              Some {| AndroidConfig.senderID := Some "1234567890" |};
            PluginConfig.others := [] |}
  ∧ log on_android = [].
Proof. split; reflexivity. Qed.

(** After the registration event both handlers have run on the same
    identifier: the promise holds the first token object, marked
    registered; the cache holds the second one, created by the handler
    of [_callbackRegistration], which nobody marked. *)
Example after_registration_tokens :
  promise_of 0 after_registration = Some (Resolved (VToken 0))
  ∧ heap after_registration
    = [ {| PushToken.token := "abc123"; PushToken.registered := true;
           PushToken.saved := false |};
        PushToken.new "abc123" ]
  ∧ _token after_registration = Some 1
  ∧ storage after_registration !! "push_token" = Some (stored_token "abc123")
  ∧ bus after_registration = [PushRegister "abc123"]
  ∧ blockRegistration after_registration = false.
Proof. vm_compute. done. Qed.

(** Saving that token while logged in as [u1], then the HTTP success:
    the record carries the user id and the token object is marked
    saved. *)
Example save_after_registration :
  let s := run [CallSaveToken 1 SaveTokenOptions.empty; HttpEnds 0 None]
             after_registration in
  promise_of 1 s = Some (Resolved (VToken 1))
  ∧ PushToken.saved <$> heap s !! 1 = Some true
  ∧ outbox s = [None].
Proof. vm_compute. done. Qed.

(** Unregistering, then the HTTP success: cache and record are gone,
    and the next read of the getter throws. *)
Example unregister_after_registration :
  let s := run [CallUnregister; HttpEnds 0 None] after_registration in
  promise_of 1 s = Some (Resolved VUndefined)
  ∧ _token s = None
  ∧ storage s !! "push_token" = None
  ∧ blockUnregister s = false
  ∧ plugin_calls s = [PluginInit 7 (PushOptions.pluginConfig (options on_android));
                      PluginUnregister 7]
  ∧ eval get_token s = Throw no_stored_token.
Proof. vm_compute. done. Qed.

(** ** The theorems at work on the scenarios *)


Lemma get_token_absent_witness :
  _token in_browser = None
  ∧ storage in_browser !! "push_token" = None
  ∧ eval get_token in_browser = Throw no_stored_token
  ∧ exec get_token in_browser = in_browser
  ∧ eval get_token (exec get_token in_browser) = Throw no_stored_token.
Proof.
  split_and!; [reflexivity|reflexivity|..];
    apply (get_token_absent in_browser); reflexivity.
Defined.

Lemma unregister_lock_discipline_witness :
  let tr := [CallUnregister; CallRegister; CallUnregister] in
  unregister_idle after_registration = true
  ∧ forallb (not_completion_of (length (outbox after_registration))) tr = true
  ∧ match unregister after_registration with
    | (Throw _, s1) => unregister_idle s1 = true
    | (Ok d, s1) =>
        let s2 := run tr s1 in
        unregister s2 =
          (Ok (length (promises s2)),
           with_promises (promises s2 ++ [Rejected unregister_in_progress]) s2)
        ∧ unregister_idle
            (exec (client_end (length (outbox after_registration))
                     (Some (TransportError "503"))) s2) = true
    end.
Proof.
  split_and!; [reflexivity|reflexivity|].
  apply (unregister_lock_discipline after_registration); reflexivity.
Defined.

Lemma unregister_completion_witness :
  let s := exec unregister after_registration in
  outbox s !! 0 = Some (Some invalidate_abc123)
  ∧ promise_of 1 s = Some Pending
  ∧ heap s !! 1 = Some (PushToken.new "abc123")
  ∧ let s' := exec (client_end 0 (Some (TransportError "503"))) s in
    promise_of 1 s' = Some (Rejected (TransportError "503"))
    ∧ _token s' = _token s
    ∧ storage s' = storage s
    ∧ heap s' = heap s.
Proof.
  split_and!; [reflexivity|reflexivity|reflexivity|].
  apply (unregister_completion (exec unregister after_registration) 0
           invalidate_abc123 1 1 (PushToken.new "abc123")
           (Some (TransportError "503"))); reflexivity.
Defined.

Lemma registration_event_round_trip_witness :
  let s := run [CallRegister; DeviceReady 0 (Some 7)] on_android in
  handlers s !! 0 = Some (7, OnRegistrationResolve 0)
  ∧ promise_of 0 s = Some Pending
  ∧ let s' := exec (plugin_emit 7 (EvRegistration "abc123")) s in
    (∃ r tok,
       promise_of 0 s' = Some (Resolved (VToken r))
       ∧ heap s' !! r = Some tok
       ∧ PushToken.token tok = "abc123"
       ∧ PushToken.registered tok = true)
    ∧ storage s' !! "push_token" = Some (stored_token "abc123")
    ∧ ∃ r' tok',
        eval get_token (with_token None s') = Ok (Some r')
        ∧ heap (exec get_token (with_token None s')) !! r' = Some tok'
        ∧ PushToken.token tok' = "abc123".
Proof.
  split_and!; [reflexivity|reflexivity|].
  apply (registration_event_round_trip
           (run [CallRegister; DeviceReady 0 (Some 7)] on_android) 7 0 "abc123").
  - apply (list_elem_of_lookup_2 _ 0). reflexivity.
  - reflexivity.
Defined.


Lemma constructor_missing_sender_id_witness :
  device_isAndroid android_u1 = true
  ∧ truthy_str (PushOptions.sender_id sender_in_plugin_config) = false
  ∧ let s := constructor android_u1 sender_in_plugin_config ∅ in
    s = {| deps := android_u1; options := sender_in_plugin_config;
           plugin := None; blockRegistration := false;
           blockUnregister := false; blockSaveToken := false;
           registered := false; _token := None; storage := ∅; heap := [];
           promises := []; ready_subs := []; handlers := [];
           plugin_calls := []; outbox := []; bus := [];
           log := [gcm_not_found] |}
    ∧ register s =
        (Ok 0, with_ready_subs [0]
                 (with_blockRegistration true (with_promises [Pending] s))).
Proof.
  split_and!; [reflexivity|reflexivity|].
  apply (constructor_missing_sender_id android_u1 sender_in_plugin_config ∅);
    reflexivity.
Defined.

(** * Further properties of [push.ts] *)

(** ** The token setter and getter *)

Lemma stored_token_eta (o : PushStorageObject.t) :
  stored_token (PushStorageObject.token o) = o.
Proof. by destruct o. Qed.

(** The setter, on a token object. *)
Lemma set_token_object (r : tokref) (tok : PushToken.t) (s : Push) :
  heap s !! r = Some tok →
  set_token (Some r) s =
    (Ok tt,
     with_token (Some r)
       (with_storage
          (<["push_token" := stored_token (PushToken.token tok)]> (storage s)) s)).
Proof. intros Hr. run_m. rewrite Hr. reflexivity. Qed.

(** The setter, on [null]. *)
Lemma set_token_null (s : Push) :
  set_token None s =
    (Ok tt, with_token None (with_storage (delete "push_token" (storage s)) s)).
Proof. reflexivity. Qed.

(** X1.  Writing a token object through the setter and reading the
    getter gives that very object back, without allocating; storage
    then holds exactly its token string, and a coordinator that starts
    with an empty cache on this storage loads a token with the same
    string. *)
Theorem token_set_then_get (r : tokref) (tok : PushToken.t) (s : Push) :
  heap s !! r = Some tok →
  let s1 := exec (set_token (Some r)) s in
  get_token s1 = (Ok (Some r), s1)
  ∧ heap s1 = heap s
  ∧ storage s1 !! "push_token" = Some (stored_token (PushToken.token tok))
  ∧ ∃ s2 r',
      get_token (with_token None s1) = (Ok (Some r'), s2)
      ∧ (PushToken.token <$> heap s2 !! r') = Some (PushToken.token tok)
      ∧ storage s2 = storage s1.
Proof.
  intros Hr s1. subst s1. unfold exec. rewrite (set_token_object r tok s Hr).
  simpl. split_and!.
  - by apply get_token_cached.
  - done.
  - by rewrite lookup_insert_eq.
  - eexists _, _. split.
    + apply (get_token_stored _ (stored_token (PushToken.token tok))); simpl;
        [done|by rewrite lookup_insert_eq].
    + simpl. by rewrite lookup_new.
Qed.

(** X2.  Writing [null] through the setter deletes the stored record
    and empties the cache, so the next read of the getter throws; this
    holds whatever was cached or stored before. *)
Theorem token_set_null_then_get (s : Push) :
  let s1 := exec (set_token None) s in
  _token s1 = None
  ∧ storage s1 !! "push_token" = None
  ∧ heap s1 = heap s
  ∧ get_token s1 = (Throw no_stored_token, s1).
Proof.
  simpl. unfold exec. rewrite set_token_null. simpl.
  split_and!; [done|by rewrite lookup_delete_eq|done|].
  apply get_token_throws; simpl; [done|by rewrite lookup_delete_eq].
Qed.

(** X3.  The getter caches: whenever a read returns, the next read
    returns the same object and changes nothing, so at most the first
    read allocates. *)
Theorem get_token_twice (s s1 : Push) (v : option tokref) :
  get_token s = (Ok v, s1) →
  get_token s1 = (Ok v, s1)
  ∧ (length (heap s1) ≤ S (length (heap s)))%nat.
Proof.
  destruct (_token s) as [r|] eqn:Hc.
  - rewrite (get_token_cached _ _ Hc). intros [= <- <-].
    split; [by apply get_token_cached|lia].
  - destruct (storage s !! "push_token") as [o|] eqn:Hs.
    + rewrite (get_token_stored _ _ Hc Hs). intros [= <- <-].
      split; [by apply get_token_cached|].
      simpl. rewrite length_app. simpl. lia.
    + rewrite (get_token_throws _ Hc Hs). discriminate.
Qed.

(** ** The write-through invariant *)

#[local] Instance preserved_preorder (P : Push → Prop) : PreOrder (preserved P).
Proof. split; [intros s H; exact H | intros x y z; unfold preserved; auto]. Qed.

(** A step that leaves cache, storage and token objects alone. *)
Lemma cache_consistent_view (s s' : Push) :
  cache_view s = cache_view s' → preserved cache_consistent s s'.
Proof.
  unfold cache_view, preserved, cache_consistent. intros [= Hc Hs Hh].
  by rewrite Hc, Hs, Hh.
Qed.

Lemma new_PushToken_cache (t : string) :
  keeps (preserved cache_consistent) (new_PushToken t).
Proof.
  intros s. unfold exec, preserved, cache_consistent. simpl.
  destruct (_token s) as [r|]; [|done].
  intros (tok & Hr & Hs). exists tok. split; [|done].
  rewrite lookup_app_l; [done|by eapply lookup_lt_Some].
Qed.

Lemma set_token_cache (v : option tokref) :
  keeps (preserved cache_consistent) (set_token v).
Proof.
  intros s Hinv. unfold exec. destruct v as [r|]; [|done].
  destruct (heap s !! r) as [tok|] eqn:Hr.
  - rewrite (set_token_object r tok s Hr). unfold cache_consistent. simpl.
    exists tok. split; [done|by rewrite lookup_insert_eq].
  - run_m. by rewrite Hr.
Qed.

Lemma get_token_cache : keeps (preserved cache_consistent) get_token.
Proof.
  intros s Hinv. unfold exec.
  destruct (_token s) as [r|] eqn:Hc.
  - by rewrite (get_token_cached _ _ Hc).
  - destruct (storage s !! "push_token") as [o|] eqn:Hs.
    + rewrite (get_token_stored _ _ Hc Hs). unfold cache_consistent. simpl.
      eexists. split; [apply lookup_new|]. simpl.
      by rewrite stored_token_eta.
    + by rewrite (get_token_throws _ Hc Hs).
Qed.

(** Setting a flag of a token object does not change its string. *)
Lemma set_flag_cache (r : tokref) (f : PushToken.t → PushToken.t) (s : Push) :
  (∀ t, PushToken.token (f t) = PushToken.token t) →
  preserved cache_consistent s
    (match heap s !! r with
     | Some t => with_heap (<[r := f t]> (heap s)) s
     | None => s
     end).
Proof.
  intros Hf Hinv. destruct (heap s !! r) as [t|] eqn:Hr; [|done].
  unfold cache_consistent in *. simpl.
  destruct (_token s) as [c|]; [|done].
  destruct Hinv as (tok & Hc & Hs).
  destruct (decide (c = r)) as [->|Hne].
  - exists (f t). rewrite list_lookup_insert_eq by (by eapply lookup_lt_Some).
    split; [done|]. rewrite Hf. congruence.
  - exists tok. by rewrite list_lookup_insert_ne.
Qed.

Lemma set_registered_cache (r : tokref) (b : bool) :
  keeps (preserved cache_consistent) (set_registered r b).
Proof.
  intros s Hinv.
  pose proof (set_flag_cache r
    (λ t, {| PushToken.token := PushToken.token t;
             PushToken.registered := b;
             PushToken.saved := PushToken.saved t |}) s (λ _, eq_refl) Hinv) as H.
  unfold exec. run_m. by destruct (heap s !! r).
Qed.

Lemma set_saved_cache (r : tokref) (b : bool) :
  keeps (preserved cache_consistent) (set_saved r b).
Proof.
  intros s Hinv.
  pose proof (set_flag_cache r
    (λ t, {| PushToken.token := PushToken.token t;
             PushToken.registered := PushToken.registered t;
             PushToken.saved := b |}) s (λ _, eq_refl) Hinv) as H.
  unfold exec. run_m. by destruct (heap s !! r).
Qed.

(** Methods are broken down to the operations on the cache, which keep
    the invariant, and to field updates that do not concern it. *)
Ltac cache_step :=
  match goal with
  | |- keeps _ get_token => apply get_token_cache
  | |- keeps _ (set_token _) => apply set_token_cache
  | |- keeps _ (set_registered _ _) => apply set_registered_cache
  | |- keeps _ (set_saved _ _) => apply set_saved_cache
  | |- keeps _ (new_PushToken _) => apply new_PushToken_cache
  | _ => keeps_step
  end.

Ltac cache_field :=
  intros; apply cache_consistent_view; unfold cache_view; simpl;
  repeat case_match; done.

Ltac cache_method :=
  unfold deliver_device_ready, plugin_emit, client_end;
  unfold register, register_device_ready, saveToken, saveToken_end,
    unregister, unregister_end;
  unfold _callbackRegistration, _getPushPlugin;
  unfold resolve, reject, this_plugin_on;
  unfold settle, new_DeferredPromise, deref, storage_get, logger,
    emitter_emit, emitter_once_device_ready, client_post, plugin_init,
    plugin_on, plugin_unregister;
  repeat cache_step; cache_field.

Lemma plugin_handler_cache (k : PluginHandler) (ev : PluginEvent) :
  keeps (preserved cache_consistent) (plugin_handler k ev).
Proof. destruct k, ev; simpl; cache_method. Qed.

Lemma step_cache_consistent (a : Action) (s : Push) :
  cache_consistent s → cache_consistent (step a s).
Proof.
  revert s.
  destruct a as [| | | |h ev|]; simpl;
    match goal with
    | |- ∀ s, _ → cache_consistent (exec ?m s) =>
        change (keeps (preserved cache_consistent) m)
    end; try (cache_method; fail).
  apply keeps_plugin_emit; [apply _|]. intros k. apply plugin_handler_cache.
Qed.

(** X4.  The token cache is write-through in every state a coordinator
    can reach: whenever a token object is cached, the record stored
    under ['push_token'] carries that object's token string, whatever
    the storage held when the coordinator was built and whatever calls,
    plugin events and HTTP completions have happened since. *)
Theorem cache_write_through (dp : PushDependencies) (o : PushOptions.t)
    (stored : gmap string PushStorageObject.t) (tr : list Action) :
  cache_consistent (run tr (constructor dp o stored)).
Proof.
  assert (H0 : cache_consistent (constructor dp o stored)).
  { unfold constructor. by destruct (device_isAndroid dp && _). }
  revert H0. generalize (constructor dp o stored) as s.
  induction tr as [|a tr IH]; intros s Hs; [exact Hs|].
  unfold run. simpl. apply IH. by apply step_cache_consistent.
Qed.

(** ** Completion of the save request *)

(** X5.  Take any state in which a save request is outstanding, with
    its promise [d] pending and [r] the token object it was called on.
    On success the token object gets its [saved] flag, keeping its
    string and its [registered] flag, and [d] is resolved with that very
    object.  On failure [d] is rejected with the error, the error is
    logged and the token objects are as they were.  Either way the
    request is completed, and cache, storage and the other two locks
    are untouched. *)
Theorem saveToken_completion (s : Push) (i : nat) (rq : Request)
    (d : deferred) (r : tokref) (data : ServiceTokenData.t)
    (tok : PushToken.t) (err : option JsError) :
  outbox s !! i = Some (Some rq) →
  on_end rq = SaveTokenEnd d r data →
  promise_of d s = Some Pending →
  heap s !! r = Some tok →
  let s' := exec (client_end i err) s in
  match err with
  | None =>
      promise_of d s' = Some (Resolved (VToken r))
      ∧ heap s' = <[r := {| PushToken.token := PushToken.token tok;
                            PushToken.registered := PushToken.registered tok;
                            PushToken.saved := true |}]> (heap s)
  | Some e =>
      promise_of d s' = Some (Rejected e)
      ∧ heap s' = heap s
      ∧ log s' = log s ++ [mkLog LError "Ionic Push:" (Some e)]
  end
  ∧ outbox s' = <[i := None]> (outbox s)
  ∧ _token s' = _token s
  ∧ storage s' = storage s
  ∧ blockSaveToken s' = false
  ∧ blockRegistration s' = blockRegistration s
  ∧ blockUnregister s' = blockUnregister s.
Proof.
  unfold promise_of. intros Hi Hk Hd Hr.
  assert (Hlt : d < length (promises s)) by (by eapply lookup_lt_Some).
  unfold exec. run_m. rewrite Hi. simpl. rewrite Hk. simpl.
  destruct err as [e|]; simpl.
  - rewrite Hd. simpl. by rewrite list_lookup_insert_eq.
  - rewrite Hr. simpl.
    destruct (truthy_str (ServiceTokenData.user_id data)); simpl;
      rewrite Hr; simpl; rewrite Hd; simpl;
      by rewrite list_lookup_insert_eq.
Qed.

(** ** The registration event and the lock *)

(** On a registration event no handler throws. *)
Lemma registration_handler_returns (k : PluginHandler) (t : string) (s : Push) :
  ∃ s', plugin_handler k (EvRegistration t) s = (Ok tt, s').
Proof.
  destruct k as [d| | |].
  - eexists. apply on_registration_resolve.
  - destruct (on_registration_fields t s) as (s' & -> & _). by eexists.
  - by eexists.
  - by eexists.
Qed.

Lemma registration_handler_lock_stays_clear (k : PluginHandler) (t : string) :
  keeps (stays_false blockRegistration) (plugin_handler k (EvRegistration t)).
Proof. destruct k; simpl; keeps_method. Qed.

Lemma on_registration_resolve_clears_lock (d : deferred) (t : string) (s : Push) :
  blockRegistration (exec (plugin_handler (OnRegistrationResolve d) (EvRegistration t)) s)
  = false.
Proof.
  unfold exec at 1. rewrite on_registration_resolve. simpl.
  unfold exec, resolve, settle, modify. simpl.
  by destruct (promises s !! d) as [[]|].
Qed.

Lemma run_handlers_clears_lock (d : deferred) (t : string) (h : handle)
    (hs : list (handle * PluginHandler)) (s : Push) :
  (h, OnRegistrationResolve d) ∈ hs →
  blockRegistration (exec (run_handlers hs h (EvRegistration t)) s) = false.
Proof.
  revert s. induction hs as [|[h' k] hs IH]; intros s Hin.
  - by apply elem_of_nil in Hin.
  - simpl. unfold exec, bind.
    destruct (decide ((h', k) = (h, OnRegistrationResolve d))) as [[= -> ->]|Hne].
    + rewrite Nat.eqb_refl.
      pose proof (on_registration_resolve_clears_lock d t s) as Hl.
      unfold exec in Hl.
      destruct (registration_handler_returns (OnRegistrationResolve d) t s)
        as (s1 & Hs1).
      rewrite Hs1 in *. simpl in Hl.
      apply (keeps_run_handlers (stays_false blockRegistration) hs h
               (EvRegistration t) (λ k, registration_handler_lock_stays_clear k t)
               s1 Hl).
    + apply elem_of_cons in Hin as [Heq|Hin]; [congruence|].
      destruct (Nat.eqb h' h).
      * destruct (registration_handler_returns k t s) as (s1 & ->).
        by apply IH.
      * simpl. by apply IH.
Qed.

(** X6.  A registration event on a handle frees the registration lock
    whenever a handler of some [register()] call is attached to that
    handle, whether the promise of that call is still pending or was
    settled long ago. *)
Theorem registration_event_releases_lock (s : Push) (h : handle) (d : deferred)
    (t : string) :
  (h, OnRegistrationResolve d) ∈ handlers s →
  blockRegistration (exec (plugin_emit h (EvRegistration t)) s) = false.
Proof.
  intros Hin.
  pose proof (run_handlers_clears_lock d t h (handlers s) s Hin) as H.
  unfold exec, plugin_emit, bind, gets in *. simpl. exact H.
Qed.

(** ** A registration from call to token *)

(** What the [device:ready] callback does when the plugin is there. *)
Lemma register_device_ready_present (d : deferred) (h : handle) (s : Push) :
  register_device_ready d (Some h) s =
    (Ok tt,
     with_registered true
       (with_handlers
          (handlers s ++ [(h, OnRegistrationResolve d); (h, OnRegistration);
                          (h, OnNotification); (h, OnError)])
          (with_plugin (Some h)
             (with_plugin_calls
                (plugin_calls s ++ [PluginInit h (PushOptions.pluginConfig (options s))])
                s)))).
Proof.
  run_m. by rewrite <- !app_assoc.
Qed.

(** X7.  From any state with the registration lock clear: [register()]
    returns the pending promise [d]; when [device:ready] reaches the
    call and the plugin is present, the plugin is initialised once with
    [options.pluginConfig], the four handlers are attached to the
    handle, in order, and [d] is still pending; when the plugin then
    reports the identifier [t], [d] is resolved with a registered token
    for [t], storage holds [t], and the lock is clear again. *)
Theorem register_to_token (s : Push) (h : handle) (t : string) :
  blockRegistration s = false →
  let d := length (promises s) in
  let s1 := exec register s in
  let s2 := exec (deliver_device_ready d (Some h)) s1 in
  let s3 := exec (plugin_emit h (EvRegistration t)) s2 in
  eval register s = Ok d
  ∧ promise_of d s1 = Some Pending
  ∧ blockRegistration s1 = true
  ∧ plugin s2 = Some h
  ∧ plugin_calls s2
    = plugin_calls s ++ [PluginInit h (PushOptions.pluginConfig (options s))]
  ∧ handlers s2
    = handlers s ++ [(h, OnRegistrationResolve d); (h, OnRegistration);
                     (h, OnNotification); (h, OnError)]
  ∧ promise_of d s2 = Some Pending
  ∧ registered_as d t s3
  ∧ blockRegistration s3 = false.
Proof.
  intros Hl d s1 s2 s3.
  set (e1 := with_ready_subs (ready_subs s ++ [d])
               (with_blockRegistration true
                  (with_promises (promises s ++ [Pending]) s))).
  set (e2 := with_registered true
            (with_handlers
               (handlers s ++ [(h, OnRegistrationResolve d); (h, OnRegistration);
                               (h, OnNotification); (h, OnError)])
               (with_plugin (Some h)
                  (with_plugin_calls
                     (plugin_calls s ++
                        [PluginInit h (PushOptions.pluginConfig (options s))])
                     (with_ready_subs (remove Nat.eq_dec d (ready_subs s ++ [d]))
                        e1))))).
  assert (Hs1 : s1 = e1).
  { subst s1 e1. unfold exec. by rewrite (register_unlocked s Hl). }
  assert (Hs2 : s2 = e2).
  { subst s2. rewrite Hs1. subst e2.
    unfold exec, deliver_device_ready, bind, gets, modify. simpl.
    rewrite bool_decide_eq_true_2
      by (apply elem_of_app; right; apply elem_of_cons; by left).
    by rewrite register_device_ready_present. }
  clearbody s1 s2. subst s1 s2.
  assert (Hp2 : promise_of d e2 = Some Pending).
  { unfold promise_of. simpl. apply lookup_new. }
  assert (Hh2 : (h, OnRegistrationResolve d) ∈ handlers e2).
  { simpl. apply elem_of_app. right. apply elem_of_cons. by left. }
  split_and!.
  - unfold eval. by rewrite (register_unlocked s Hl).
  - unfold promise_of. simpl. apply lookup_new.
  - done.
  - done.
  - done.
  - done.
  - exact Hp2.
  - destruct (run_handlers_registers d t h (handlers e2) e2 Hh2 Hp2)
      as (s' & Hrun & Hreg).
    replace s3 with s'; [exact Hreg|].
    subst s3. unfold exec, plugin_emit, bind, gets. by rewrite Hrun.
  - pose proof (run_handlers_clears_lock d t h (handlers e2) e2 Hh2) as H.
    subst s3. unfold exec, plugin_emit, bind, gets in *. exact H.
Qed.

(** ** [device:ready] without the plugin *)

(** X8.  When [device:ready] reaches a pending [register()] call and
    the plugin is missing, the call is rejected with "Push plugin not
    found! See logs." and exactly one line is logged: an error on iOS
    and Android, a warning anywhere else.  The subscription is used up;
    the plugin is neither initialised nor given handlers, and the
    registration lock is left as it was. *)
Theorem device_ready_plugin_absent (s : Push) (d : deferred) :
  d ∈ ready_subs s →
  promise_of d s = Some Pending →
  let s' := exec (deliver_device_ready d None) s in
  promise_of d s' = Some (Rejected plugin_not_found)
  ∧ (d ∉ ready_subs s')
  ∧ (∃ e, log s' = log s ++ [e]
          ∧ level e = (if device_isIOS (deps s) || device_isAndroid (deps s)
                       then LError else LWarn))
  ∧ plugin s' = plugin s
  ∧ plugin_calls s' = plugin_calls s
  ∧ handlers s' = handlers s
  ∧ registered s' = registered s
  ∧ blockRegistration s' = blockRegistration s.
Proof.
  unfold promise_of. intros Hin Hd.
  assert (Hlt : d < length (promises s)) by (by eapply lookup_lt_Some).
  unfold exec. run_m. rewrite bool_decide_eq_true_2 by done. simpl.
  assert (Hrm : d ∉ remove Nat.eq_dec d (ready_subs s)).
  { intros H. apply list_elem_of_In in H. by apply remove_In in H. }
  destruct (device_isIOS (deps s) || device_isAndroid (deps s)); simpl;
    rewrite Hd; simpl;
    (split_and!; [by rewrite list_lookup_insert_eq|done|by eexists|done..]).
Qed.

(** ** Notifications and errors from the plugin *)

Lemma passive_handler (k : PluginHandler) (ev : PluginEvent) :
  (∀ t, ev ≠ EvRegistration t) →
  keeps (same passive_view) (plugin_handler k ev).
Proof.
  intros Hev. destruct k, ev; simpl;
    try (exfalso; eapply Hev; reflexivity); keeps_method.
Qed.

(** X9.  A notification or an error coming from the plugin is only
    passed on: whatever handlers are attached, the event changes
    nothing but the event bus and the log.  Locks, cached token,
    storage, token objects, promises, subscriptions and requests stay
    as they are. *)
Theorem plugin_notification_passive (s : Push) (h : handle) (ev : PluginEvent) :
  (∀ t, ev ≠ EvRegistration t) →
  passive_view (exec (plugin_emit h ev) s) = passive_view s.
Proof.
  intros Hev. symmetry.
  apply (keeps_plugin_emit (same passive_view) h ev (λ k, passive_handler k ev Hev) s).
Qed.

#[local] Instance quiet_preorder : PreOrder quiet.
Proof.
  split.
  - intros s. by split.
  - intros x y z [Ho1 Hl1] [Ho2 Hl2]. split; [congruence|].
    intros Hd. rewrite Hl2, Hl1; [done|done|]. by rewrite Ho1.
Qed.

Lemma quiet_handler (k : PluginHandler) (ev : PluginEvent) :
  keeps quiet (plugin_handler k ev).
Proof.
  intros s. unfold quiet.
  destruct (truthy_bool (PushOptions.debug (options s))) eqn:Hdbg.
  - split; [|done].
    assert (Hk : keeps (same options) (plugin_handler k ev))
      by (destruct k, ev; simpl; keeps_method).
    symmetry. apply (Hk s).
  - destruct k as [d| | |], ev as [t|raw|e]; try (by split);
      unfold exec, plugin_handler; run_m;
      repeat (progress (rewrite ?lookup_new, ?insert_new, ?Hdbg; simpl));
      try (by split).
    by destruct (promises s !! d) as [[]|].
Qed.

(** X10.  With [options.debug] unset or false, no plugin event makes
    the coordinator log anything, whichever handlers are attached. *)
Theorem plugin_events_quiet_without_debug (s : Push) (h : handle)
    (ev : PluginEvent) :
  truthy_bool (PushOptions.debug (options s)) = false →
  log (exec (plugin_emit h ev) s) = log s.
Proof.
  intros Hdbg.
  by apply (keeps_plugin_emit quiet h ev (λ k, quiet_handler k ev) s).
Qed.

(** ** The invalidate request *)

(** X11.  An [unregister()] call that finds the lock clear and returns
    has issued one request to ['/push/tokens/invalidate'].  Its record
    carries the configured app id, never a user id, and the current
    token string: the one of the cached token object or, when nothing
    was cached, the one of the stored record.  The native plugin is
    told to unregister exactly when a plugin handle exists. *)
Theorem unregister_request (s s1 : Push) (d : deferred) :
  blockUnregister s = false →
  unregister s = (Ok d, s1) →
  ∃ rq,
    outbox s1 = outbox s ++ [Some rq]
    ∧ path rq = "/push/tokens/invalidate"
    ∧ ServiceTokenData.app_id (body rq) = Config.get "app_id" (config (deps s))
    ∧ ServiceTokenData.user_id (body rq) = None
    ∧ match _token s with
      | Some r =>
          (PushToken.token <$> heap s !! r) = Some (ServiceTokenData.token (body rq))
      | None =>
          (PushStorageObject.token <$> storage s !! "push_token")
          = Some (ServiceTokenData.token (body rq))
      end
    ∧ plugin_calls s1
      = plugin_calls s ++ match plugin s with
                          | Some h => [PluginUnregister h]
                          | None => []
                          end
    ∧ storage s1 = storage s.
Proof.
  intros Hl. run_m. rewrite Hl. simpl.
  destruct (_token s) as [r|] eqn:Hc; simpl.
  - rewrite Hc. simpl. destruct (heap s !! r) as [tok|] eqn:Hr; simpl; [|done].
    destruct (plugin s); simpl; intros [= <- <-]; simpl;
      eexists; (split; [reflexivity|]); simpl;
      rewrite ?app_nil_r; by split_and!.
  - destruct (storage s !! "push_token") as [o|]; simpl; [|done].
    rewrite lookup_new. simpl.
    destruct (plugin s); simpl; intros [= <- <-]; simpl;
      eexists; (split; [reflexivity|]); simpl;
      rewrite ?app_nil_r; by split_and!.
Qed.

(** X12.  In every state a coordinator can reach, the unregister lock
    is held exactly when an unregister request is outstanding, and no
    two unregister requests are ever outstanding together. *)
Theorem unregister_one_outstanding (dp : PushDependencies) (o : PushOptions.t)
    (stored : gmap string PushStorageObject.t) (tr : list Action) :
  let s := run tr (constructor dp o stored) in
  (blockUnregister s = true ↔
   ∃ i, is_unregister_end (mjoin (outbox s !! i)) = true)
  ∧ ∀ i j,
      is_unregister_end (mjoin (outbox s !! i)) = true →
      is_unregister_end (mjoin (outbox s !! j)) = true →
      i = j.
Proof.
  intros s. destruct (unregister_idle_or_in_flight dp o stored tr) as [Hidle|[n Hin]].
  - fold s in Hidle. unfold unregister_idle in Hidle.
    apply andb_prop in Hidle as [Hl Hout]. apply negb_true_iff in Hl.
    rewrite forallb_lookup in Hout.
    assert (Hnone : ∀ i, is_unregister_end (mjoin (outbox s !! i)) = false).
    { intros i. destruct (outbox s !! i) as [x|] eqn:Hx; [|done]. simpl.
      specialize (Hout i x Hx). by apply negb_true_iff in Hout. }
    split.
    + split; [by rewrite Hl|]. intros [i Hi]. by rewrite Hnone in Hi.
    + intros i j Hi. by rewrite Hnone in Hi.
  - fold s in Hin. destruct Hin as (Hl & Hn & Hj). split.
    + split; [by exists n|done].
    + intros i j Hi Hj'.
      destruct (decide (i = n)) as [->|Hi'];
        [|by rewrite (Hj i Hi') in Hi].
      destruct (decide (j = n)) as [->|Hj''];
        [done|by rewrite (Hj j Hj'') in Hj'].
Qed.

(** ** Construction with a sender id *)

(** X13.  When the constructor does not stop on the configuration
    error, it logs nothing and leaves [sender_id] and [debug] as passed.
    On Android the plugin configuration ends up with a sender id: the
    one already present in [pluginConfig.android] if that is non-empty,
    the [sender_id] option otherwise.  Off Android the plugin
    configuration is the one passed, or the empty one. *)
Theorem constructor_plugin_config (dp : PushDependencies) (opts : PushOptions.t)
    (stored : gmap string PushStorageObject.t) :
  device_isAndroid dp && negb (truthy_str (PushOptions.sender_id opts)) = false →
  let s := constructor dp opts stored in
  let given := default PluginConfig.empty (PushOptions.pluginConfig opts) in
  let given_sender := PluginConfig.android given ≫= AndroidConfig.senderID in
  log s = []
  ∧ PushOptions.sender_id (options s) = PushOptions.sender_id opts
  ∧ PushOptions.debug (options s) = PushOptions.debug opts
  ∧ ∃ pc,
      PushOptions.pluginConfig (options s) = Some pc
      ∧ PluginConfig.others pc = PluginConfig.others given
      ∧ if device_isAndroid dp then
          (PluginConfig.android pc ≫= AndroidConfig.senderID)
          = (if truthy_str given_sender then given_sender
             else PushOptions.sender_id opts)
          ∧ truthy_str (PluginConfig.android pc ≫= AndroidConfig.senderID) = true
        else pc = given.
Proof.
  intros Hc s given given_sender. subst s. unfold constructor. rewrite Hc. simpl.
  split_and!; [done..|]. eexists. split; [reflexivity|].
  fold given. destruct (device_isAndroid dp); simpl; [|done].
  split; [done|]. simpl in Hc. apply negb_false_iff in Hc.
  subst given_sender.
  destruct (PluginConfig.android given) as [[sid]|]; simpl.
  - destruct (truthy_str sid) eqn:Hs; simpl; [by rewrite Hs|done].
  - done.
Qed.

(** * Properties of [config.ts] *)

Lemma getURL_unfold (name : string) (c : Config.t) :
  Config.getURL name c =
    if Config.truthy_member (Config.member (configured_urls c) name)
    then Config.member (configured_urls c) name
    else Config.member Config.urls name.
Proof.
  reflexivity.
Qed.

(** An own property shadows the inherited one. *)
Lemma member_own (obj : gmap string string) (name v : string) :
  obj !! name = Some v → Config.member obj name = Some (Config.Own v).
Proof.
  intros H. unfold Config.member. by rewrite H.
Qed.

Lemma member_not_own (obj : gmap string string) (name : string) :
  obj !! name = None →
  Config.member obj name =
    if bool_decide (name ∈ Config.object_prototype)
    then Some (Config.Inherited name) else None.
Proof.
  intros H. unfold Config.member. by rewrite H.
Qed.

Lemma member_urls_api :
  Config.member Config.urls "api" = Some (Config.Own "https://api.ionic.io").
Proof. reflexivity. Qed.

(** X14.  [getURL('api')] never comes back empty: whatever settings are
    registered, or none, the result is a non-empty URL, the configured
    one if there is a non-empty one and the built-in
    ['https://api.ionic.io'] otherwise. *)
Theorem getURL_api_defined (c : Config.t) :
  (∃ u, Config.getURL "api" c = Some (Config.Own u) ∧ u ≠ ""
        ∧ (∀ v, configured_urls c !! "api" = Some v → v ≠ "" → u = v))
  ∧ (truthy_str (configured_urls c !! "api") = false →
     Config.getURL "api" c = Some (Config.Own "https://api.ionic.io")).
Proof.
  rewrite getURL_unfold.
  destruct (configured_urls c !! "api") as [v|] eqn:Hc.
  - rewrite (member_own _ _ _ Hc). simpl.
    destruct (String.eqb v "") eqn:Hv; simpl.
    + apply String.eqb_eq in Hv as ->. split; [|done].
      eexists. split; [apply member_urls_api|]. split; [done|].
      intros v [= <-] Hv. done.
    + apply String.eqb_neq in Hv. split; [|done].
      exists v. split; [done|]. split; [done|]. by intros ? [= ->].
  - rewrite (member_not_own _ _ Hc). simpl.
    split; [|done].
    eexists. split; [apply member_urls_api|]. done.
Qed.

(** X15.  A non-empty URL in the registered settings wins over the
    built-in one. *)
Theorem getURL_configured (c : Config.t) (name u : string) :
  configured_urls c !! name = Some u →
  u ≠ "" →
  Config.getURL name c = Some (Config.Own u).
Proof.
  intros Hc Hu. rewrite getURL_unfold, (member_own _ _ _ Hc). simpl.
  by apply String.eqb_neq in Hu as ->.
Qed.

(** X16.  For a name other than ['api'] that has no non-empty URL in
    the registered settings (none at all, or the empty string),
    [getURL] has no URL to fall back on: it returns [undefined], unless
    the name is one every object inherits from [Object.prototype]
    (['toString'], ['constructor'], ...), in which case it returns that
    inherited member, which is not a string. *)
Theorem getURL_unknown (c : Config.t) (name : string) :
  name ≠ "api" →
  truthy_str (configured_urls c !! name) = false →
  Config.getURL name c =
    if bool_decide (name ∈ Config.object_prototype)
    then Some (Config.Inherited name) else None.
Proof.
  intros Hn Hc. rewrite getURL_unfold.
  assert (Hu : Config.urls !! name = None)
    by (unfold Config.urls; by apply lookup_singleton_ne).
  destruct (configured_urls c !! name) as [v|] eqn:Hv.
  - rewrite (member_own _ _ _ Hv). simpl. simpl in Hc. rewrite Hc.
    by apply member_not_own.
  - rewrite (member_not_own _ _ Hv), (member_not_own _ _ Hu).
    by destruct (bool_decide (name ∈ Config.object_prototype)).
Qed.

(** * Properties of [cordova.ts] *)

Section CordovaLoader.
Import Cordova.

(** ** The decoder of the scenarios *)

(** An escaped space is decoded; an escaped slash is reserved and stays
    escaped; a string without escapes comes back as it is; a lone [%]
    is malformed. *)
Example decodeURI_ascii_samples :
  decodeURI_ascii "my%20app/cordova.js" = DecodedAs "my app/cordova.js"
  ∧ decodeURI_ascii "lib%2Fcordova.js" = DecodedAs "lib%2Fcordova.js"
  ∧ decodeURI_ascii "lib/cordova.js" = DecodedAs "lib/cordova.js"
  ∧ decodeURI_ascii "100%" = URIError "URI malformed".
Proof. vm_compute. done. Qed.

Lemma decode_escapes_plain (str : string) :
  existsb (Ascii.eqb "%"%char) (String.list_ascii_of_string str) = false →
  decode_escapes str = Some str.
Proof.
  induction str as [|c str IH]; [done|].
  cbn [String.list_ascii_of_string existsb]. intros H.
  apply orb_false_iff in H as [Hc H].
  cbn [decode_escapes]. rewrite Ascii.eqb_sym in Hc. rewrite Hc.
  by rewrite (IH H).
Qed.

(** ** [split('/')] and the last part *)

Lemma split_slash_nonempty (str : string) : split_slash str ≠ [].
Proof.
  destruct str as [|c rest]; simpl; [done|].
  destruct (Ascii.eqb c "/"); [done|]. by destruct (split_slash rest).
Qed.

Lemma split_slash_join (str : string) : join_slash (split_slash str) = str.
Proof.
  induction str as [|c rest IH]; simpl; [done|].
  destruct (Ascii.eqb c "/") eqn:Hc.
  - apply Ascii.eqb_eq in Hc as ->. simpl.
    pose proof (split_slash_nonempty rest) as Hne.
    destruct (split_slash rest) as [|part parts]; [done|].
    simpl in *. by rewrite IH.
  - pose proof (split_slash_nonempty rest) as Hne.
    destruct (split_slash rest) as [|part parts]; [done|].
    destruct parts as [|part' parts]; simpl in *; by rewrite <- IH.
Qed.

Lemma split_slash_free (str : string) :
  slash_free str = true → split_slash str = [str].
Proof.
  induction str as [|c rest IH]; simpl; [done|].
  intros [Hc Hrest]%andb_prop. apply negb_true_iff in Hc. rewrite Hc.
  by rewrite (IH Hrest).
Qed.

Lemma split_slash_app (p q : string) :
  split_slash (p ++ String "/" q)%string = split_slash p ++ split_slash q.
Proof.
  induction p as [|c p IH]; simpl; [done|].
  rewrite IH. destruct (Ascii.eqb c "/"); [done|].
  pose proof (split_slash_nonempty p) as Hne.
  by destruct (split_slash p).
Qed.

Lemma string_app_assoc (a b c : string) :
  ((a ++ b) ++ c)%string = (a ++ (b ++ c))%string.
Proof.
  induction a as [|x a IH]; [done|].
  change (String x ((a ++ b) ++ c) = String x (a ++ (b ++ c)))%string.
  by f_equal.
Qed.

Lemma join_slash_snoc (parts : list string) (part : string) :
  parts ≠ [] →
  join_slash (parts ++ [part]) = (join_slash parts ++ String "/" part)%string.
Proof.
  induction parts as [|x parts IH]; [done|]. intros _.
  destruct parts as [|y parts]; simpl; [done|].
  simpl in IH. rewrite IH by done.
  by rewrite string_app_assoc.
Qed.

(** The scripts [isAvailable] accepts: the name is ['cordova.js'], alone
    or after a [/]. *)
Lemma is_cordova_js_iff (src : string) :
  is_cordova_js (Some src) = true ↔
  src = "cordova.js" ∨ ∃ p, src = (p ++ "/cordova.js")%string.
Proof.
  unfold is_cordova_js. split.
  - intros [_ Hlast]%andb_prop.
    destruct (last (split_slash src)) as [part|] eqn:Hl; [|done].
    apply String.eqb_eq in Hlast as ->.
    apply last_Some in Hl as [parts Hparts].
    pose proof (split_slash_join src) as Hj. rewrite Hparts in Hj.
    destruct parts as [|x parts]; [by left|].
    right. rewrite join_slash_snoc in Hj by done. by eexists.
  - intros [->|[p ->]]; [done|].
    apply andb_true_intro. split.
    + simpl. apply negb_true_iff, String.eqb_neq. by destruct p.
    + change (p ++ "/cordova.js")%string with (p ++ String "/" "cordova.js")%string.
      rewrite split_slash_app, last_app. simpl. reflexivity.
Qed.

Lemma includes_cordova_js_iff (l : list (option string)) :
  includes_cordova_js l = true ↔ ∃ src, src ∈ l ∧ is_cordova_js src = true.
Proof.
  induction l as [|x l IH]; simpl.
  - split; [done|]. intros (src & Hin & _). by apply elem_of_nil in Hin.
  - destruct (is_cordova_js x) eqn:Hx.
    + split; [|done]. intros _. exists x. split; [apply elem_of_cons; by left|done].
    + rewrite IH. split.
      * intros (src & Hin & Hs). exists src. split; [|done].
        apply elem_of_cons. by right.
      * intros (src & Hin & Hs). apply elem_of_cons in Hin as [->|Hin];
          [congruence|]. by exists src.
Qed.

Lemma isAvailable_fst (s : t) :
  fst (isAvailable s) = cordova_defined s || includes_cordova_js (scripts s).
Proof.
  unfold isAvailable, info, scripts.
  destruct (has_logger s); simpl;
    destruct (cordova_defined s); simpl; try done;
    by destruct (includes_cordova_js _).
Qed.

(** [isAvailable] only logs. *)
Lemma isAvailable_snd (s : t) :
  let s' := snd (isAvailable s) in
  scripts s' = scripts s
  ∧ head_scripts s' = head_scripts s
  ∧ body_scripts s' = body_scripts s
  ∧ cordova_defined s' = cordova_defined s
  ∧ deviceType s' = deviceType s
  ∧ location_href s' = location_href s
  ∧ location_search s' = location_search s
  ∧ decodeURI s' = decodeURI s
  ∧ has_logger s' = has_logger s
  ∧ dom_listeners s' = dom_listeners s
  ∧ bus_handlers s' = bus_handlers s
  ∧ app_closed s' = app_closed s.
Proof.
  unfold isAvailable, info, scripts.
  destruct (has_logger s) eqn:Hl; simpl;
    destruct (cordova_defined s) eqn:Hc; simpl; rewrite ?Hl; simpl;
    try (by split_and!);
    destruct (includes_cordova_js _); simpl; rewrite ?Hl; by split_and!.
Qed.

(** X17.  [isAvailable()] answers yes exactly when the global [cordova]
    is defined or some script of the page has a [src] that is
    ['cordova.js'] or ends in ['/cordova.js']; scripts without [src],
    and names that merely end in the letters [cordova.js], do not
    count. *)
Theorem isAvailable_iff (s : t) :
  fst (isAvailable s) = true ↔
  cordova_defined s = true
  ∨ ∃ src, Some src ∈ scripts s
           ∧ (src = "cordova.js" ∨ ∃ p, src = (p ++ "/cordova.js")%string).
Proof.
  rewrite isAvailable_fst, orb_true_iff, includes_cordova_js_iff.
  split; (intros [Hc|Hs]; [by left|right]).
  - destruct Hs as ([src|] & Hin & His); [|done].
    exists src. split; [done|]. by apply is_cordova_js_iff.
  - destruct Hs as (src & Hin & His). exists (Some src).
    split; [done|]. by apply is_cordova_js_iff.
Qed.

(** ** [load()] *)

Lemma includes_cordova_js_app (l1 l2 : list (option string)) :
  includes_cordova_js (l1 ++ l2)
  = includes_cordova_js l1 || includes_cordova_js l2.
Proof.
  induction l1 as [|x l1 IH]; simpl; [done|].
  by destruct (is_cordova_js x).
Qed.

(** Choosing the source only logs. *)
Lemma cordovaSrc_snd (s : t) :
  let s' := snd (cordovaSrc s) in
  head_scripts s' = head_scripts s
  ∧ body_scripts s' = body_scripts s
  ∧ cordova_defined s' = cordova_defined s
  ∧ deviceType s' = deviceType s
  ∧ has_logger s' = has_logger s
  ∧ dom_listeners s' = dom_listeners s
  ∧ bus_handlers s' = bus_handlers s
  ∧ app_closed s' = app_closed s.
Proof.
  unfold cordovaSrc, info.
  destruct (has_logger s) eqn:Hl; repeat (case_match; simpl); by rewrite ?Hl.
Qed.

(** What [load()] does to the page. *)
Lemma load_scripts (s : t) :
  head_scripts (load s)
  = head_scripts s ++
      (if fst (isAvailable s) then []
       else [Some (fst (cordovaSrc (snd (isAvailable s))))])
  ∧ body_scripts (load s) = body_scripts s
  ∧ cordova_defined (load s) = cordova_defined s
  ∧ deviceType (load s) = deviceType s.
Proof.
  unfold load. pose proof (isAvailable_snd s) as Hs. simpl in Hs.
  destruct (isAvailable s) as [available s1]. simpl in *.
  destruct Hs as (_ & Hh & Hb & Hc & Hd & _).
  destruct available; simpl.
  - rewrite app_nil_r. by split_and!.
  - pose proof (cordovaSrc_snd s1) as Hs. simpl in Hs.
    destruct (cordovaSrc s1) as [src s2]. simpl in *.
    destruct Hs as (Hh2 & Hb2 & Hc2 & Hd2 & _).
    unfold info. destruct (has_logger _); simpl;
      rewrite Hh2, Hh, ?Hb2, ?Hc2, ?Hd2; by split_and!.
Qed.

(** The source chosen off iOS. *)
Lemma cordovaSrc_not_ios (s : t) :
  deviceType s ≠ "ipad" → deviceType s ≠ "iphone" →
  fst (cordovaSrc s)
  = if String.eqb (deviceType s) "android"
       && String.eqb (String.substring 0 4 (location_href s)) "file"
    then "file:///android_asset/www/cordova.js" else "cordova.js".
Proof.
  intros Hipad Hiphone. unfold cordovaSrc.
  apply String.eqb_neq in Hipad, Hiphone. rewrite Hipad, Hiphone. simpl.
  destruct (String.eqb (deviceType s) "android"); simpl; [|done].
  by destruct (String.eqb _ "file").
Qed.

(** X18.  Off iOS, [load()] is idempotent on the page: after one call
    cordova counts as available, so a second call injects nothing.  The
    first call adds at most one script, to the head: the Android asset
    path when the device is Android and the page was loaded from a
    [file] URL, ['cordova.js'] otherwise; and none when cordova was
    available already. *)
Theorem load_idempotent (s : t) :
  deviceType s ≠ "ipad" →
  deviceType s ≠ "iphone" →
  let injected :=
    if String.eqb (deviceType s) "android"
       && String.eqb (String.substring 0 4 (location_href s)) "file"
    then "file:///android_asset/www/cordova.js" else "cordova.js" in
  head_scripts (load s)
  = head_scripts s ++ (if fst (isAvailable s) then [] else [Some injected])
  ∧ body_scripts (load s) = body_scripts s
  ∧ fst (isAvailable (load s)) = true
  ∧ scripts (load (load s)) = scripts (load s).
Proof.
  intros Hipad Hiphone injected.
  destruct (load_scripts s) as (Hh & Hb & Hc & Hd).
  destruct (isAvailable_snd s) as (_ & _ & _ & _ & Hd' & Hhr & _). simpl in *.
  assert (Hsrc : fst (cordovaSrc (snd (isAvailable s))) = injected).
  { rewrite cordovaSrc_not_ios by (by rewrite Hd'). by rewrite Hd', Hhr. }
  rewrite Hsrc in Hh.
  assert (Hi : includes_cordova_js [Some injected] = true).
  { subst injected. by case_match. }
  clearbody injected.
  assert (Hav : fst (isAvailable (load s)) = true).
  { rewrite isAvailable_fst. unfold scripts. rewrite Hh, Hb, Hc.
    destruct (fst (isAvailable s)) eqn:Ha.
    - rewrite app_nil_r. by rewrite isAvailable_fst in Ha.
    - rewrite !includes_cordova_js_app, Hi. simpl. by rewrite !orb_true_r. }
  split_and!; [exact Hh|exact Hb|exact Hav|].
  destruct (load_scripts (load s)) as (Hh2 & Hb2 & _).
  unfold scripts. rewrite Hh2, Hb2, Hav. by rewrite app_nil_r.
Qed.

(** ** The bootstrap resource on iOS *)

Lemma match_literal_app (pat k rest : string) :
  eq_ci k pat = true →
  match_literal pat (k ++ rest)%string = Some rest.
Proof.
  revert k. induction pat as [|p pat IH]; intros [|c k]; simpl; try done.
  intros [Hc Hk]%andb_prop.
  change (String c k ++ rest)%string with (String c (k ++ rest)%string).
  rewrite Ascii.eqb_sym in Hc. rewrite Hc. by apply IH.
Qed.

Lemma match_group_app (r tail : string) :
  plain r = true → ends_group tail = true →
  match_group (r ++ tail)%string = Some r.
Proof.
  intros Hr Ht. induction r as [|c r IH].
  - destruct tail as [|c tail]; [done|]. simpl in *. by rewrite Ht.
  - simpl in Hr. apply andb_prop in Hr as [Hc Hr].
    apply negb_true_iff in Hc.
    change (String c r ++ tail)%string with (String c (r ++ tail)%string).
    simpl. apply orb_false_elim in Hc as [Hc H13].
    apply orb_false_elim in Hc as [Hc H10]. rewrite Hc, H10, H13. simpl.
    by rewrite (IH Hr).
Qed.

(** The regular expression finds the resource of a query that starts
    with the key, in any case of its letters. *)
Lemma bootstrap_resource_query (k r tail : string) :
  eq_ci k "cordova_js_bootstrap_resource=" = true →
  plain r = true → ends_group tail = true →
  bootstrap_resource (String "?" (k ++ r ++ tail))%string = Some r.
Proof.
  intros Hk Hr Ht.
  assert (Hunfold : ∀ str,
    bootstrap_resource str =
      match match_literal "cordova_js_bootstrap_resource=" str ≫= match_group with
      | Some resource => Some resource
      | None =>
          match str with
          | EmptyString => None
          | String _ rest => bootstrap_resource rest
          end
      end) by (by intros []).
  rewrite Hunfold.
  change (match_literal "cordova_js_bootstrap_resource="
            (String "?" (k ++ r ++ tail)%string)) with (@None string).
  simpl mbind. rewrite Hunfold.
  rewrite (match_literal_app _ k (r ++ tail)%string Hk). simpl.
  by rewrite (match_group_app r tail Hr Ht).
Qed.

(** X19.  On an iPad or iPhone without cordova on the page, with a
    query [?cordova_js_bootstrap_resource=r] (the key in any case, [r]
    free of [&], [#] and line breaks, followed by nothing or by a part
    that starts with [&] or [#]): [load()] injects one script whose
    source is [decodeURI(r)].  When [decodeURI] throws, the source is
    ['cordova.js'] and, with a logger, the failure is logged between
    the "searching" and the "injecting" lines. *)
Theorem load_ios_bootstrap_resource (s : t) (k r tail : string) :
  deviceType s = "ipad" ∨ deviceType s = "iphone" →
  fst (isAvailable s) = false →
  location_search s = (String "?" (k ++ r ++ tail))%string →
  eq_ci k "cordova_js_bootstrap_resource=" = true →
  plain r = true →
  ends_group tail = true →
  body_scripts (load s) = body_scripts s
  ∧ match decodeURI s r with
    | DecodedAs v => head_scripts (load s) = head_scripts s ++ [Some v]
    | URIError e =>
        head_scripts (load s) = head_scripts s ++ [Some "cordova.js"]
        ∧ (has_logger s = true →
           logged (load s)
           = logged s ++
               [Info "Ionic Cordova: searching for cordova.js";
                Info "Ionic Cordova: could not find cordova_js_bootstrap_resource query param";
                InfoError "Ionic Cordova:" e;
                Info "Ionic Cordova: injecting cordova.js"])
    end.
Proof.
  intros Hdev Hav Hq Hk Hr Ht.
  pose proof (bootstrap_resource_query k r tail Hk Hr Ht) as Hre.
  rewrite <- Hq in Hre.
  rewrite isAvailable_fst in Hav. apply orb_false_elim in Hav as [Hc Hi].
  assert (Hd : String.eqb (deviceType s) "android" = false
               ∧ String.eqb (deviceType s) "ipad"
                 || String.eqb (deviceType s) "iphone" = true).
  { by destruct Hdev as [-> | ->]. }
  destruct Hd as [Hd1 Hd2].
  unfold load, isAvailable, cordovaSrc, info.
  destruct (has_logger s) eqn:Hl; simpl; rewrite Hc; simpl;
    unfold scripts in *; simpl; rewrite Hi; simpl;
    rewrite Hd1, Hd2, Hre; simpl;
    destruct (decodeURI s r) as [v|e]; simpl;
    repeat (progress (rewrite ?Hl; simpl)); try done.
  split; [done|]. split; [done|]. intros _.
  by rewrite <- !app_assoc.
Qed.

(** ** Pause and resume *)

Lemma emit_pause (s : t) :
  bus_handlers s = [("cordova:pause", SetClosed true);
                    ("cordova:resume", SetClosed false)] →
  emit "cordova:pause" s
  = with_app_closed (Some true) (with_emitted (emitted s ++ ["cordova:pause"]) s).
Proof. intros H. unfold emit. rewrite H. reflexivity. Qed.

Lemma emit_resume (s : t) :
  bus_handlers s = [("cordova:pause", SetClosed true);
                    ("cordova:resume", SetClosed false)] →
  emit "cordova:resume" s
  = with_app_closed (Some false) (with_emitted (emitted s ++ ["cordova:resume"]) s).
Proof. intros H. unfold emit. rewrite H. reflexivity. Qed.

Lemma emit_deviceready (s : t) :
  bus_handlers s = [("cordova:pause", SetClosed true);
                    ("cordova:resume", SetClosed false)] →
  emit "cordova:deviceready" s
  = with_emitted (emitted s ++ ["cordova:deviceready"]) s.
Proof. intros H. unfold emit. rewrite H. reflexivity. Qed.

Lemma run_listeners_cons (n : string) (l : DomListener)
    (rest : list (string * DomListener)) (name : string) (s : t) :
  run_listeners ((n, l) :: rest) name s
  = run_listeners rest name (if String.eqb n name then listener l s else s).
Proof. reflexivity. Qed.

Lemma forwarders_cons (n : nat) :
  concat (replicate (S n) forwarders)
  = ("pause", Forward "pause") :: ("resume", Forward "resume")
      :: concat (replicate n forwarders).
Proof. reflexivity. Qed.

(** The forwarding listeners on an event that is neither [pause] nor
    [resume]: none runs. *)
Lemma run_forwarders_other (n : nat) (name : string) (s : t) :
  String.eqb "pause" name = false → String.eqb "resume" name = false →
  run_listeners (concat (replicate n forwarders)) name s = s.
Proof.
  intros Hp Hr. induction n as [|n IH]; [done|].
  rewrite forwarders_cons, !run_listeners_cons. by rewrite Hp, Hr.
Qed.

(** The forwarding listeners on [pause] and on [resume]: each pair sets
    the flag once more. *)
Lemma run_forwarders_pause (n : nat) (s : t) :
  bus_handlers s = [("cordova:pause", SetClosed true);
                    ("cordova:resume", SetClosed false)] →
  let s' := run_listeners (concat (replicate n forwarders)) "pause" s in
  bus_handlers s' = bus_handlers s
  ∧ dom_listeners s' = dom_listeners s
  ∧ app_closed s' = if Nat.eqb n 0 then app_closed s else Some true.
Proof.
  revert s. induction n as [|n IH]; intros s Hb; [done|].
  cbv zeta. rewrite forwarders_cons, !run_listeners_cons.
  change (String.eqb "pause" "pause") with true.
  change (String.eqb "resume" "pause") with false. cbv iota.
  change (listener (Forward "pause") s) with (emit "cordova:pause" s).
  rewrite (emit_pause s Hb).
  set (s1 := with_app_closed _ _).
  destruct (IH s1 Hb) as (Hb' & Hd' & Hc').
  split_and!; [by rewrite Hb'|by rewrite Hd'|].
  rewrite Hc'. by destruct (Nat.eqb n 0).
Qed.

Lemma run_forwarders_resume (n : nat) (s : t) :
  bus_handlers s = [("cordova:pause", SetClosed true);
                    ("cordova:resume", SetClosed false)] →
  let s' := run_listeners (concat (replicate n forwarders)) "resume" s in
  bus_handlers s' = bus_handlers s
  ∧ dom_listeners s' = dom_listeners s
  ∧ app_closed s' = if Nat.eqb n 0 then app_closed s else Some false.
Proof.
  revert s. induction n as [|n IH]; intros s Hb; [done|].
  cbv zeta. rewrite forwarders_cons, !run_listeners_cons.
  change (String.eqb "pause" "resume") with false.
  change (String.eqb "resume" "resume") with true. cbv iota.
  change (listener (Forward "resume") s) with (emit "cordova:resume" s).
  rewrite (emit_resume s Hb).
  set (s1 := with_app_closed _ _).
  destruct (IH s1 Hb) as (Hb' & Hd' & Hc').
  split_and!; [by rewrite Hb'|by rewrite Hd'|].
  rewrite Hc'. by destruct (Nat.eqb n 0).
Qed.

Lemma concat_replicate_snoc {A : Type} (n : nat) (l : list A) :
  concat (replicate n l) ++ l = concat (replicate (S n) l).
Proof.
  induction n as [|n IH]; simpl; [by rewrite app_nil_r|].
  rewrite <- app_assoc. by rewrite IH.
Qed.

(** One DOM event on a wired object. *)
Lemma dispatch_wired (n : nat) (e : string) (s : t) :
  wired n s →
  if String.eqb e "deviceready" then
    wired (S n) (dispatch e s) ∧ app_closed (dispatch e s) = app_closed s
  else
    wired n (dispatch e s)
    ∧ app_closed (dispatch e s)
      = if negb (Nat.eqb n 0) && String.eqb e "pause" then Some true
        else if negb (Nat.eqb n 0) && String.eqb e "resume" then Some false
        else app_closed s.
Proof.
  intros [Hb Hd]. unfold dispatch. rewrite Hd.
  destruct (String.eqb e "deviceready") eqn:He.
  - apply String.eqb_eq in He as ->. simpl.
    rewrite (emit_deviceready s Hb). simpl.
    rewrite run_forwarders_other by done. simpl.
    split; [|done]. split; [done|]. simpl. rewrite Hd. simpl.
    f_equal. rewrite <- app_assoc.
    exact (concat_replicate_snoc n forwarders).
  - rewrite run_listeners_cons, (String.eqb_sym "deviceready" e), He.
    destruct (String.eqb e "pause") eqn:Hp.
    + apply String.eqb_eq in Hp as ->.
      destruct (run_forwarders_pause n s Hb) as (Hb' & Hd' & Hc').
      rewrite andb_true_r. split; [split; congruence|].
      rewrite Hc'. by destruct (Nat.eqb n 0).
    + destruct (String.eqb e "resume") eqn:Hr.
      * apply String.eqb_eq in Hr as ->.
        destruct (run_forwarders_resume n s Hb) as (Hb' & Hd' & Hc').
        rewrite andb_false_r, andb_true_r. split; [split; congruence|].
        rewrite Hc'. by destruct (Nat.eqb n 0).
      * rewrite !andb_false_r.
        rewrite run_forwarders_other by (by rewrite String.eqb_sym).
        by split.
Qed.

Lemma dispatch_all_wired (events : list string) (n : nat) (s : t) :
  wired n s →
  app_closed (fold_left (λ st e, dispatch e st) events s)
  = track_closed (negb (Nat.eqb n 0)) (app_closed s) events.
Proof.
  revert n s. induction events as [|e events IH]; intros n s Hw; [done|].
  simpl. pose proof (dispatch_wired n e s Hw) as Hd.
  destruct (String.eqb e "deviceready").
  - destruct Hd as [Hw' Hc]. rewrite (IH (S n) _ Hw'). by rewrite Hc.
  - destruct Hd as [Hw' Hc]. rewrite (IH n _ Hw'). rewrite Hc.
    destruct (negb (Nat.eqb n 0)); simpl; [|done].
    destruct (String.eqb e "pause"); [done|].
    by destruct (String.eqb e "resume").
Qed.

(** [load()] leaves listeners, bus handlers and [app.closed] alone. *)
Lemma load_wiring (s : t) :
  dom_listeners (load s) = dom_listeners s
  ∧ bus_handlers (load s) = bus_handlers s
  ∧ app_closed (load s) = app_closed s.
Proof.
  unfold load. pose proof (isAvailable_snd s) as Hs. simpl in Hs.
  destruct (isAvailable s) as [available s1]. simpl in *.
  destruct Hs as (_ & _ & _ & _ & _ & _ & _ & _ & _ & Hd & Hb & Hc).
  destruct available; simpl; [done|].
  pose proof (cordovaSrc_snd s1) as Hs. simpl in Hs.
  destruct (cordovaSrc s1) as [src s2]. simpl in *.
  destruct Hs as (_ & _ & _ & _ & _ & Hd2 & Hb2 & Hc2).
  unfold info. destruct (has_logger _); simpl; by rewrite Hd2, Hb2, Hc2.
Qed.

(** X20.  On a page where nothing else listens: after the constructor
    and [bootstrap()], whatever DOM events follow, [app.closed] is
    decided by the last [pause] or [resume] that came after the first
    [deviceready]: true after a pause, false after a resume.  Pauses
    and resumes before the first [deviceready] are ignored, and so are
    all other events; with none that counts, [app.closed] is what the
    constructor was given. *)
Theorem app_closed_tracks_pause_resume (cordova : bool)
    (head body : list (option string)) (href search : string)
    (decode : string → Decoded) (closed : option bool) (device : string)
    (logger : bool) (events : list string) :
  let s := bootstrap (constructor closed device logger
                        (blank_page cordova head body href search decode)) in
  app_closed (fold_left (λ st e, dispatch e st) events s)
  = track_closed false closed events.
Proof.
  intros s.
  assert (Hw : wired 0 s ∧ app_closed s = closed).
  { subst s. unfold bootstrap.
    destruct (load_wiring
      (with_dom_listeners
         (dom_listeners (constructor closed device logger
            (blank_page cordova head body href search decode))
          ++ [("deviceready", OnDeviceReady)])
         (constructor closed device logger
            (blank_page cordova head body href search decode))))
      as (Hd & Hb & Hc).
    split; [split|]; [by rewrite Hb|by rewrite Hd|by rewrite Hc]. }
  destruct Hw as [Hw Hc]. rewrite (dispatch_all_wired events 0 s Hw).
  by rewrite Hc.
Qed.

End CordovaLoader.

(** * The further properties on the scenarios *)

Lemma token_set_then_get_witness :
  heap after_registration !! 0
  = Some {| PushToken.token := "abc123"; PushToken.registered := true;
            PushToken.saved := false |}
  ∧ let s1 := exec (set_token (Some 0)) after_registration in
    get_token s1 = (Ok (Some 0), s1)
    ∧ heap s1 = heap after_registration
    ∧ storage s1 !! "push_token" = Some (stored_token "abc123")
    ∧ ∃ s2 r',
        get_token (with_token None s1) = (Ok (Some r'), s2)
        ∧ (PushToken.token <$> heap s2 !! r') = Some "abc123"
        ∧ storage s2 = storage s1.
Proof.
  split; [reflexivity|].
  apply (token_set_then_get 0
           {| PushToken.token := "abc123"; PushToken.registered := true;
              PushToken.saved := false |} after_registration).
  reflexivity.
Defined.

Lemma get_token_twice_witness :
  get_token after_registration = (Ok (Some 1), after_registration)
  ∧ (length (heap after_registration) ≤ S (length (heap after_registration)))%nat.
Proof.
  apply (get_token_twice after_registration after_registration (Some 1)).
  reflexivity.
Defined.

Lemma saveToken_completion_witness :
  let s := exec (saveToken 1 SaveTokenOptions.empty) after_registration in
  outbox s !! 0 = Some (Some save_abc123)
  ∧ promise_of 1 s = Some Pending
  ∧ heap s !! 1 = Some (PushToken.new "abc123")
  ∧ let s' := exec (client_end 0 None) s in
    (promise_of 1 s' = Some (Resolved (VToken 1))
     ∧ heap s' = <[1 := {| PushToken.token := "abc123";
                           PushToken.registered := false;
                           PushToken.saved := true |}]> (heap s))
    ∧ outbox s' = <[0 := None]> (outbox s)
    ∧ _token s' = _token s
    ∧ storage s' = storage s
    ∧ blockSaveToken s' = false
    ∧ blockRegistration s' = blockRegistration s
    ∧ blockUnregister s' = blockUnregister s.
Proof.
  split_and!; [reflexivity|reflexivity|reflexivity|].
  apply (saveToken_completion
           (exec (saveToken 1 SaveTokenOptions.empty) after_registration)
           0 save_abc123 1 1 save_abc123_data (PushToken.new "abc123") None);
    reflexivity.
Defined.

Lemma registration_event_releases_lock_witness :
  handlers after_registration !! 0 = Some (7, OnRegistrationResolve 0)
  ∧ promise_of 0 after_registration = Some (Resolved (VToken 0))
  ∧ blockRegistration
      (exec (plugin_emit 7 (EvRegistration "refreshed"))
         (exec register after_registration)) = false.
Proof.
  split_and!; [reflexivity|reflexivity|].
  apply (registration_event_releases_lock (exec register after_registration) 7 0).
  apply (list_elem_of_lookup_2 _ 0). reflexivity.
Defined.

Lemma register_to_token_witness :
  blockRegistration on_android = false
  ∧ let s1 := exec register on_android in
    let s2 := exec (deliver_device_ready 0 (Some 7)) s1 in
    let s3 := exec (plugin_emit 7 (EvRegistration "abc123")) s2 in
    eval register on_android = Ok 0
    ∧ promise_of 0 s1 = Some Pending
    ∧ blockRegistration s1 = true
    ∧ plugin s2 = Some 7
    ∧ plugin_calls s2
      = plugin_calls on_android
        ++ [PluginInit 7 (PushOptions.pluginConfig (options on_android))]
    ∧ handlers s2
      = handlers on_android
        ++ [(7, OnRegistrationResolve 0); (7, OnRegistration);
            (7, OnNotification); (7, OnError)]
    ∧ promise_of 0 s2 = Some Pending
    ∧ registered_as 0 "abc123" s3
    ∧ blockRegistration s3 = false.
Proof.
  split; [reflexivity|].
  apply (register_to_token on_android 7 "abc123"). reflexivity.
Defined.

Lemma device_ready_plugin_absent_witness :
  let s := exec register in_browser in
  ready_subs s !! 0 = Some 0
  ∧ promise_of 0 s = Some Pending
  ∧ let s' := exec (deliver_device_ready 0 None) s in
    promise_of 0 s' = Some (Rejected plugin_not_found)
    ∧ (0 ∉ ready_subs s')
    ∧ (∃ e, log s' = log s ++ [e] ∧ level e = LWarn)
    ∧ plugin s' = plugin s
    ∧ plugin_calls s' = plugin_calls s
    ∧ handlers s' = handlers s
    ∧ registered s' = registered s
    ∧ blockRegistration s' = blockRegistration s.
Proof.
  split_and!; [reflexivity|reflexivity|].
  apply (device_ready_plugin_absent (exec register in_browser) 0).
  - apply (list_elem_of_lookup_2 _ 0). reflexivity.
  - reflexivity.
Defined.

Lemma plugin_notification_passive_witness :
  passive_view (exec (plugin_emit 7 (EvNotification "hello")) after_registration)
  = passive_view after_registration
  ∧ bus (exec (plugin_emit 7 (EvNotification "hello")) after_registration)
    = bus after_registration
      ++ [PushNotification (PushMessage.fromPluginData "hello") "hello"].
Proof.
  split; [|reflexivity].
  apply (plugin_notification_passive after_registration 7 (EvNotification "hello")).
  intros t. discriminate.
Defined.

Lemma plugin_events_quiet_without_debug_witness :
  truthy_bool (PushOptions.debug (options after_registration)) = false
  ∧ log (exec (plugin_emit 7 (EvError "lost")) after_registration)
    = log after_registration.
Proof.
  split; [reflexivity|].
  apply (plugin_events_quiet_without_debug after_registration 7 (EvError "lost")).
  reflexivity.
Defined.

Lemma unregister_request_witness :
  blockUnregister after_registration = false
  ∧ unregister after_registration = (Ok 1, exec unregister after_registration)
  ∧ ∃ rq,
      outbox (exec unregister after_registration)
      = outbox after_registration ++ [Some rq]
      ∧ path rq = "/push/tokens/invalidate"
      ∧ ServiceTokenData.app_id (body rq) = Some "a1b2c3"
      ∧ ServiceTokenData.user_id (body rq) = None
      ∧ (PushToken.token <$> heap after_registration !! 1)
        = Some (ServiceTokenData.token (body rq))
      ∧ plugin_calls (exec unregister after_registration)
        = plugin_calls after_registration ++ [PluginUnregister 7]
      ∧ storage (exec unregister after_registration)
        = storage after_registration.
Proof.
  split_and!; [reflexivity|reflexivity|].
  apply (unregister_request after_registration
           (exec unregister after_registration) 1); reflexivity.
Defined.

Lemma constructor_plugin_config_witness :
  device_isAndroid android_u1
  && negb (truthy_str (PushOptions.sender_id with_sender)) = false
  ∧ let s := constructor android_u1 with_sender ∅ in
    log s = []
    ∧ PushOptions.sender_id (options s) = Some "1234567890"
    ∧ PushOptions.debug (options s) = None
    ∧ ∃ pc,
        PushOptions.pluginConfig (options s) = Some pc
        ∧ PluginConfig.others pc = []
        ∧ (PluginConfig.android pc ≫= AndroidConfig.senderID) = Some "1234567890"
        ∧ truthy_str (PluginConfig.android pc ≫= AndroidConfig.senderID) = true.
Proof.
  split; [reflexivity|].
  apply (constructor_plugin_config android_u1 with_sender ∅). reflexivity.
Defined.

Lemma getURL_configured_witness :
  configured_urls staging_config !! "api" = Some "https://staging.ionic.io"
  ∧ Config.getURL "api" staging_config
    = Some (Config.Own "https://staging.ionic.io").
Proof.
  split; [reflexivity|].
  apply (getURL_configured staging_config "api" "https://staging.ionic.io");
    [reflexivity|discriminate].
Defined.

Lemma getURL_unknown_witness :
  (truthy_str (configured_urls staging_config !! "web") = false
   ∧ Config.getURL "web" staging_config = None)
  ∧ (truthy_str (configured_urls staging_config !! "toString") = false
     ∧ Config.getURL "toString" staging_config
       = Some (Config.Inherited "toString")).
Proof.
  split; (split; [reflexivity|]).
  - exact (getURL_unknown staging_config "web"
             ltac:(discriminate) ltac:(reflexivity)).
  - exact (getURL_unknown staging_config "toString"
             ltac:(discriminate) ltac:(reflexivity)).
Defined.

Lemma load_idempotent_witness :
  Cordova.head_scripts (Cordova.load android_page)
  = Cordova.head_scripts android_page
    ++ [Some "file:///android_asset/www/cordova.js"]
  ∧ Cordova.body_scripts (Cordova.load android_page)
    = Cordova.body_scripts android_page
  ∧ fst (Cordova.isAvailable (Cordova.load android_page)) = true
  ∧ Cordova.scripts (Cordova.load (Cordova.load android_page))
    = Cordova.scripts (Cordova.load android_page).
Proof.
  apply (load_idempotent android_page); discriminate.
Defined.

Lemma load_ios_bootstrap_resource_witness :
  Cordova.location_search ipad_page
  = String "?" ("Cordova_JS_Bootstrap_Resource=" ++ "my%20app/cordova.js" ++ "&debug=1")%string
  ∧ fst (Cordova.isAvailable ipad_page) = false
  ∧ Cordova.body_scripts (Cordova.load ipad_page) = Cordova.body_scripts ipad_page
  ∧ Cordova.head_scripts (Cordova.load ipad_page)
    = Cordova.head_scripts ipad_page ++ [Some "my app/cordova.js"].
Proof.
  pose proof (load_ios_bootstrap_resource ipad_page
                "Cordova_JS_Bootstrap_Resource=" "my%20app/cordova.js" "&debug=1"
                (or_introl eq_refl) eq_refl eq_refl eq_refl eq_refl eq_refl)
    as [Hb Hh].
  split_and!; [reflexivity|reflexivity|exact Hb|].
  vm_compute in Hh. exact Hh.
Defined.

